(** * Template matching by rotation-invariant cross-correlation

    A shallow embedding of
    [computer_vision/template_matching/cross_correlation.py]:
    the sample generator [scipy_example], the single-orientation correlator
    [cross_correlation] and the rotational sweep [rotational_cc].

    Samples are exact rationals ([Q]); a 2-D array is a shape together with
    its row-major buffer.  The numerical primitives the script borrows
    (2-D correlation, argmax, mean and max along the first axis) are written
    out; the rotation primitive and the data set are parameters. *)

From Stdlib Require Import PrimFloat FloatOps.
From Stdlib Require Import ZArith QArith Qabs Qround Lia Bool.
From stdpp Require Import base option list strings gmap.

Local Open Scope nat_scope.

(** ** Outcomes of a Python call *)

Inductive exn := AssertionError | ValueError | IndexError.

Inductive outcome (A : Type) :=
| Returned (a : A)
| Raised (e : exn)
| OutOfFuel.
Arguments Returned {A} a.
Arguments Raised {A} e.
Arguments OutOfFuel {A}.

(** Calls into the borrowed primitives are recorded in a ghost log, so that
    "how much work was done" is observable. *)
Inductive event :=
| EvRotate (angle : Z)
| EvCorrelate2d.

(** State-and-exception monad: a computation threads a state [S] and ends in
    an [outcome]. *)
Definition ST (S A : Type) : Type := S -> outcome A * S.

#[export] Instance ST_ret {S} : MRet (ST S) := fun A a s => (Returned a, s).
#[export] Instance ST_bind {S} : MBind (ST S) := fun A B k m s =>
  match m s with
  | (Returned a, s') => k a s'
  | (Raised e, s') => (Raised e, s')
  | (OutOfFuel, s') => (OutOfFuel, s')
  end.

Definition raise {S A} (e : exn) : ST S A := fun s => (Raised e, s).
Definition out_of_fuel {S A} : ST S A := fun s => (OutOfFuel, s).
Definition lift {S A} (o : outcome A) : ST S A := fun s => (o, s).

(** The correlator and the sweep run over the log of primitive calls. *)
Abbreviation M := (ST (list event)).

Definition emit (e : event) : M unit := fun tr => (Returned tt, tr ++ [e]).
Definition run {A} (m : M A) : outcome A * list event := m [].

(** ** Two-dimensional arrays *)

Record array2d := Array2d { shape : nat * nat; data : list Q }.

Definition height (a : array2d) : nat := fst (shape a).
Definition width (a : array2d) : nat := snd (shape a).
Definition size (a : array2d) : nat := height a * width a.

(** The buffer holds exactly [height * width] samples. *)
Definition wf (a : array2d) : Prop := length (data a) = size a.

(** [a[i, j]], row-major. *)
Definition item (a : array2d) (i j : nat) : Q :=
  nth (i * width a + j) (data a) 0%Q.

Definition Qsum (l : list Q) : Q := fold_right Qplus 0%Q l.

Definition Qltb (x y : Q) : bool := negb (Qle_bool y x).

(** ** [scipy.signal.correlate2d(in1, in2, boundary='symm', mode='same')] *)

(** Symmetric boundary: an index outside [0, m) is mirrored about the edge,
    the edge sample being repeated ([d c b a | a b c d | d c b a]). *)
Definition reflect_symm_index (j : Z) (m : nat) : nat :=
  let m2 := (2 * Z.of_nat m)%Z in
  let k := (if (0 <=? j)%Z then j mod m2 else Z.abs (j + 1) mod m2)%Z in
  Z.to_nat (if (Z.of_nat m <=? k)%Z then m2 - k - 1 else k)%Z.

(** One cell of the surface: the filter window is centred on [(m, n)] and the
    products with the mirrored background are summed. *)
Definition correlate_cell (in1 in2 : array2d) (m n : nat) : Q :=
  let off0 := (Z.of_nat m - (Z.of_nat (height in2) - 1) / 2)%Z in
  let off1 := (Z.of_nat n - (Z.of_nat (width in2) - 1) / 2)%Z in
  Qsum (flat_map (fun j =>
          map (fun k =>
                 (item in1 (reflect_symm_index (off0 + Z.of_nat j) (height in1))
                           (reflect_symm_index (off1 + Z.of_nat k) (width in1))
                  * item in2 j k)%Q)
              (seq 0 (width in2)))
        (seq 0 (height in2))).

(** mode='same': one cell per cell of [in1].  The sums are exact: the
    wrap-around of an integer dtype (uint8 sums are kept modulo 256) and the
    rounding of float64 are not modelled. *)
Definition correlate2d (in1 in2 : array2d) : array2d :=
  {| shape := shape in1;
     data := flat_map (fun m => map (fun n => correlate_cell in1 in2 m n)
                                    (seq 0 (width in1)))
                      (seq 0 (height in1)) |}.

(** ** [np.argmax] and [np.unravel_index] *)

(** Scan of the flattened buffer; the running maximum is replaced only by a
    strictly greater sample, so the first occurrence wins. *)
Fixpoint argmax_from (best : Q) (besti i : nat) (l : list Q) : nat :=
  match l with
  | [] => besti
  | x :: t => if Qltb best x then argmax_from x i (S i) t
              else argmax_from best besti (S i) t
  end.

Definition np_argmax (a : array2d) : outcome nat :=
  match data a with
  | [] => Raised ValueError
  | x :: t => Returned (argmax_from x 0 1 t)
  end.

Definition np_unravel_index (idx : nat) (shp : nat * nat) : outcome (nat * nat) :=
  if idx <? fst shp * snd shp
  then Returned (idx / snd shp, idx mod snd shp)
  else Raised ValueError.

(** ** [cross_correlation] *)

Inductive correlation_result :=
| Surface (corr : array2d)
| SurfaceWithLoc (corr : array2d) (loc : nat * nat).

Definition cross_correlation (background_image filter : array2d)
    (return_max_loc : bool) : M correlation_result :=
  _ ← emit EvCorrelate2d;
  let corr := correlate2d background_image filter in
  if return_max_loc then
    idx ← lift (np_argmax corr);
    yx ← lift (np_unravel_index idx (shape corr));
    let '(y, x) := yx in
    mret (SurfaceWithLoc corr (x, y))
  else mret (Surface corr).

(** ** [np.mean(..., axis=0)] and [np.max(..., axis=0)] over a list of arrays *)

(** Samples at flat position [i] across the list.  The mean below is the
    exact rational mean; [np.mean] accumulates in binary64 and may be off by
    rounding. *)
Definition column (l : list array2d) (i : nat) : list Q :=
  map (fun a => nth i (data a) 0%Q) l.

Definition Qmean (l : list Q) : Q := (Qsum l / inject_Z (Z.of_nat (length l)))%Q.

Definition Qmaximum (l : list Q) : Q :=
  match l with
  | [] => 0%Q
  | x :: t => fold_left (fun m y => if Qltb m y then y else m) t x
  end.

(** The list is first stacked into one 3-D array, which needs equal shapes
    (and, for [np.max], at least one element); the reduction then runs
    cell by cell. *)
Definition reduce_axis0 (red : list Q -> Q) (l : list array2d) : outcome array2d :=
  match l with
  | [] => Raised ValueError
  | a :: t =>
      if forallb (fun b => bool_decide (shape b = shape a)) t
      then Returned {| shape := shape a;
                       data := map (fun i => red (column l i)) (seq 0 (size a)) |}
      else Raised ValueError
  end.

Definition np_mean_axis0 : list array2d -> outcome array2d := reduce_axis0 Qmean.
Definition np_max_axis0 : list array2d -> outcome array2d := reduce_axis0 Qmaximum.

(** ** [rotational_cc] *)

Inductive sweep_result :=
| FullSweep (all_correlations : list array2d) (max_locs : list (nat * nat))
| Average (mean : array2d)
| Maximum (max : array2d)
| Both (mean max : array2d).

Record sweep_state := SweepState {
  filter_angle : Z;
  all_correlations : list array2d;
  max_locs : list (nat * nat)
}.

Definition sweep_init : sweep_state :=
  {| filter_angle := 0; all_correlations := []; max_locs := [] |}.

Section Sweep.

(** [scipy.ndimage.rotate(input, angle, reshape=True)]: any function. *)
Variable rotate : array2d -> Z -> array2d.

(** One pass through the body of the [while].  The correlator is asked for
    the peak, so its result unpacks into surface and location. *)
Definition loop_body (background_image filter : array2d) (angle : Z)
    (st : sweep_state) : M sweep_state :=
  _ ← emit (EvRotate (filter_angle st));
  let rotated_filter := rotate filter (filter_angle st) in
  r ← cross_correlation background_image rotated_filter true;
  match r with
  | SurfaceWithLoc corr max_loc =>
      mret {| filter_angle := filter_angle st + angle;
              all_correlations := all_correlations st ++ [corr];
              max_locs := max_locs st ++ [max_loc] |}
  | Surface _ => raise ValueError
  end.

(** [while filter_angle < 360: ...]; the fuel bounds the number of passes
    and [OutOfFuel] stands for a loop still running. *)
Fixpoint sweep_loop (fuel : nat) (background_image filter : array2d)
    (angle : Z) (st : sweep_state) : M sweep_state :=
  if (filter_angle st <? 360)%Z then
    match fuel with
    | O => out_of_fuel
    | S fuel' =>
        st' ← loop_body background_image filter angle st;
        sweep_loop fuel' background_image filter angle st'
    end
  else mret st.

Definition rotational_cc (fuel : nat) (background_image filter : array2d)
    (angle : Z) (return_average return_max : bool) : M sweep_result :=
  if (angle <? 360)%Z then
    st ← sweep_loop fuel background_image filter angle sweep_init;
    if return_average && return_max then
      mean ← lift (np_mean_axis0 (all_correlations st));
      max ← lift (np_max_axis0 (all_correlations st));
      mret (Both mean max)
    else if return_average then
      mean ← lift (np_mean_axis0 (all_correlations st));
      mret (Average mean)
    else if return_max then
      max ← lift (np_max_axis0 (all_correlations st));
      mret (Maximum max)
    else mret (FullSweep (all_correlations st) (max_locs st))
  else raise AssertionError.

(** *** What the sweep is expected to compute *)

(** [ceil(360 / angle)]. *)
Definition sweep_count (angle : Z) : nat := Z.to_nat ((360 + angle - 1) / angle).

Definition angles_from (start angle : Z) (n : nat) : list Z :=
  map (fun k => (start + Z.of_nat k * angle)%Z) (seq 0 n).

Definition sweep_angles (angle : Z) : list Z := angles_from 0 angle (sweep_count angle).

Definition peak (corr : array2d) : nat * nat :=
  let idx := match data corr with [] => 0 | x :: t => argmax_from x 0 1 t end in
  (idx mod width corr, idx / width corr).

Definition surface_at (background_image filter : array2d) (a : Z) : array2d :=
  correlate2d background_image (rotate filter a).

Definition sweep_events (angles : list Z) : list event :=
  flat_map (fun a => [EvRotate a; EvCorrelate2d]) angles.

End Sweep.

(** ** NumPy arrays as views of shared buffers

    The sample generator slices, copies and updates arrays in place, so its
    arrays are handles: a buffer in the store, an offset, a shape and the two
    strides.  A slice is a new handle on the same buffer; [np.copy] and the
    arithmetic operators allocate a buffer. *)

Abbreviation heap := (gmap nat (list Q)).
Abbreviation H := (ST heap).

Record ndarray := NdArray {
  base : nat;
  offset : nat;
  dims : nat * nat;
  strides : nat * nat
}.

Definition buffer (σ : heap) (l : nat) : list Q := default [] (σ !! l).

(** Buffer positions of the cells of a view, row by row. *)
Definition view_indices (a : ndarray) : list nat :=
  flat_map (fun i => map (fun j => offset a + i * fst (strides a) + j * snd (strides a))
                         (seq 0 (snd (dims a))))
           (seq 0 (fst (dims a))).

Definition contents (σ : heap) (a : ndarray) : list Q :=
  map (fun k => nth k (buffer σ (base a)) 0%Q) (view_indices a).

(** The array a handle denotes in a store. *)
Definition value (σ : heap) (a : ndarray) : array2d :=
  {| shape := dims a; data := contents σ a |}.

(** A new C-contiguous array on a fresh buffer. *)
Definition new_array (shp : nat * nat) (buf : list Q) : H ndarray := fun σ =>
  let l := fresh (dom σ) in
  (Returned {| base := l; offset := 0; dims := shp; strides := (snd shp, 1) |},
   <[l := buf]> σ).

(** [a[r0:r1, c0:c1]]: bounds are clipped to the shape and the result shares
    the buffer of [a]. *)
Definition nd_slice (a : ndarray) (r0 r1 c0 c1 : nat) : ndarray :=
  let r0' := r0 `min` fst (dims a) in
  let r1' := r1 `min` fst (dims a) in
  let c0' := c0 `min` snd (dims a) in
  let c1' := c1 `min` snd (dims a) in
  {| base := base a;
     offset := offset a + r0' * fst (strides a) + c0' * snd (strides a);
     dims := (r1' - r0', c1' - c0');
     strides := strides a |}.

(** [np.copy(a)]. *)
Definition np_copy (a : ndarray) : H ndarray := fun σ =>
  new_array (dims a) (contents σ a) σ.

(** [a.mean()]. *)
Definition nd_mean (a : ndarray) : H Q := fun σ => (Returned (Qmean (contents σ a)), σ).

(** [a - m] and [a * c] for a scalar: a new array. *)
Definition nd_sub_scalar (a : ndarray) (m : Q) : H ndarray := fun σ =>
  new_array (dims a) (map (fun x => x - m)%Q (contents σ a)) σ.

Definition nd_mul_scalar (a : ndarray) (c : Q) : H ndarray := fun σ =>
  new_array (dims a) (map (fun x => x * c)%Q (contents σ a)) σ.

(** [a + b] for arrays of one shape: a new array. *)
Definition nd_add (a b : ndarray) : H ndarray := fun σ =>
  if bool_decide (dims a = dims b)
  then new_array (dims a) (zip_with Qplus (contents σ a) (contents σ b)) σ
  else (Raised ValueError, σ).

(** Position [k] of buffer [l] is overwritten. *)
Definition store_at (l k : nat) (v : Q) (σ : heap) : heap :=
  <[l := <[k := v]> (buffer σ l)]> σ.

(** [a[i, j] = v]. *)
Definition nd_setitem (a : ndarray) (i j : nat) (v : Q) : H unit := fun σ =>
  if bool_decide (i < fst (dims a) ∧ j < snd (dims a))
  then (Returned tt,
        store_at (base a) (offset a + i * fst (strides a) + j * snd (strides a)) v σ)
  else (Raised IndexError, σ).

(** [a -= m]: every cell of the view is updated in its buffer, in the order
    of the view. *)
Definition update_cells (f : Q -> Q) (ks : list nat) (buf : list Q) : list Q :=
  fold_left (fun b k => <[k := f (nth k b 0%Q)]> b) ks buf.

Definition nd_isub_scalar (a : ndarray) (m : Q) : H unit := fun σ =>
  (Returned tt,
   <[base a := update_cells (fun x => x - m)%Q (view_indices a) (buffer σ (base a))]> σ).

(** ** [scipy_example] *)

Section Sample.

(** [datasets.face(gray=True)], the grayscale sample image. *)
Variable face : array2d.

(** The samples a fresh [np.random.default_rng()] hands out, in order. *)
Variable draw : nat -> Q.

Definition datasets_face : H ndarray := new_array (shape face) (data face).

Definition rng_standard_normal (shp : nat * nat) : H ndarray :=
  new_array shp (map draw (seq 0 (fst shp * snd shp))).

Definition scipy_example (normalize add_noise : bool) : H (ndarray * ndarray) :=
  '(background_image, filter) ←
    (if normalize then
       face1 ← datasets_face;
       face2 ← datasets_face;
       m ← nd_mean face2;
       background_image ← nd_sub_scalar face1 m;
       filter ← np_copy (nd_slice background_image 300 365 670 750);
       fm ← nd_mean filter;
       _ ← nd_isub_scalar filter fm;
       mret (background_image, filter)
     else
       background_image ← datasets_face;
       filter ← np_copy (nd_slice background_image 300 365 670 750);
       mret (background_image, filter));
  background_image ←
    (if add_noise then
       noise ← rng_standard_normal (dims background_image);
       scaled ← nd_mul_scalar noise 50;
       nd_add background_image scaled
     else mret background_image);
  mret (background_image, filter).

End Sample.

(** ** Specification vocabulary *)

(** [r] is the position of the first maximal sample of [l]. *)
Definition first_max (l : list Q) (r : nat) : Prop :=
  r < length l /\
  (forall k, k < length l -> (nth k l 0 <= nth r l 0)%Q) /\
  (forall k, k < r -> (nth k l 0 < nth r l 0)%Q).

(** The surface carried by either form of the correlator's result. *)
Definition surface_of (r : correlation_result) : array2d :=
  match r with
  | Surface corr => corr
  | SurfaceWithLoc corr _ => corr
  end.

(** Row and column of every cell of an [h] by [w] window, row by row. *)
Definition window_indices (h w : nat) : list (nat * nat) :=
  flat_map (fun j => map (pair j) (seq 0 w)) (seq 0 h).

(** Sum of the magnitudes of the background samples under the filter window
    centred on [(m, n)]. *)
Definition window_mass (in1 in2 : array2d) (m n : nat) : Q :=
  let off0 := (Z.of_nat m - (Z.of_nat (height in2) - 1) / 2)%Z in
  let off1 := (Z.of_nat n - (Z.of_nat (width in2) - 1) / 2)%Z in
  Qsum (map (fun p =>
               Qabs (item in1 (reflect_symm_index (off0 + Z.of_nat (fst p)) (height in1))
                              (reflect_symm_index (off1 + Z.of_nat (snd p)) (width in1))))
            (window_indices (height in2) (width in2))).

(** A handle on a whole C-contiguous buffer. *)
Definition contiguous (a : ndarray) : Prop :=
  offset a = 0 /\ strides a = (snd (dims a), 1).

(** In store [σ] the handle [a] owns a buffer that holds the array [v]. *)
Definition holds (σ : heap) (a : ndarray) (v : array2d) : Prop :=
  contiguous a /\ dims a = shape v /\ σ !! base a = Some (data v) /\ wf v.

(** [v - v.mean()]. *)
Definition centered (v : array2d) : array2d :=
  {| shape := shape v; data := map (fun x => x - Qmean (data v))%Q (data v) |}.

(** The block [v[r0:r1, c0:c1]] as an array of its own. *)
Definition sub_block (v : array2d) (r0 r1 c0 c1 : nat) : array2d :=
  let r0' := r0 `min` height v in
  let c0' := c0 `min` width v in
  let h := r1 `min` height v - r0' in
  let w := c1 `min` width v - c0' in
  {| shape := (h, w);
     data := flat_map (fun i => map (fun j => item v (r0' + i) (c0' + j)) (seq 0 w))
                      (seq 0 h) |}.

(** The background before any noise, the filter cut from it, and the
    background once the noise drawn from [draw] is added. *)
Definition clean_background (face : array2d) (normalize : bool) : array2d :=
  if normalize then centered face else face.

Definition clean_filter (face : array2d) (normalize : bool) : array2d :=
  let block := sub_block (clean_background face normalize) 300 365 670 750 in
  if normalize then centered block else block.

Definition with_noise (draw : nat -> Q) (v : array2d) : array2d :=
  {| shape := shape v;
     data := zip_with Qplus (data v)
                      (map (fun x => x * 50)%Q (map draw (seq 0 (height v * width v)))) |}.

Definition returned_background (face : array2d) (draw : nat -> Q)
    (normalize add_noise : bool) : array2d :=
  if add_noise then with_noise draw (clean_background face normalize)
  else clean_background face normalize.

(** The call [r], run in store [σ], returns a handle on a fresh buffer that
    holds [v], and changes nothing else. *)
Definition allocates (σ : heap) (r : outcome ndarray * heap) (v : array2d) : Prop :=
  exists a, r = (Returned a, <[base a := data v]> σ) /\
            σ !! base a = None /\
            holds (<[base a := data v]> σ) a v.

(** ** Sample inputs *)

Definition of_ints (h w : nat) (l : list Z) : array2d :=
  {| shape := (h, w); data := map inject_Z l |}.

(** A 3 by 4 background whose maximum, 9, occurs twice: at row 1, column 1
    and at row 2, column 0. *)
Definition background_3x4 : array2d :=
  of_ints 3 4 [1; 2; 3; 4;
               5; 9; 7; 8;
               9; 1; 2; 3]%Z.

Definition filter_2x2 : array2d := of_ints 2 2 [1; 0; 0; 2]%Z.

(** A rotation primitive for the examples: a quarter turn at multiples of
    90 degrees other than 0, and otherwise the input with every sample off
    by one thousandth. *)
Definition rot90 (a : array2d) : array2d :=
  {| shape := (width a, height a);
     data := flat_map (fun i => map (fun j => item a j (width a - 1 - i))
                                    (seq 0 (height a)))
                      (seq 0 (width a)) |}.

Definition rotate_sample (a : array2d) (angle : Z) : array2d :=
  if ((angle mod 90 =? 0) && negb (angle =? 0))%Z then rot90 a
  else {| shape := shape a; data := map (fun x => x + (1 # 1000))%Q (data a) |}.

(** A 768 by 1024 image with samples 0 .. 255, the size of the data set's
    picture. *)
Definition face_sample : array2d :=
  {| shape := (768, 1024);
     data := map (fun k => inject_Z (Z.of_nat (k mod 256))) (seq 0 (768 * 1024)) |}.

Definition draw_sample (n : nat) : Q := (inject_Z (Z.of_nat n) - (3 # 7))%Q.

(** A store with one 2 by 2 array, and a view of its first row. *)
Definition store_2x2 : heap := {[ 0 := [1; 2; 3; 4]%Q ]}.
Definition array_2x2 : ndarray :=
  {| base := 0; offset := 0; dims := (2, 2); strides := (2, 1) |}.
Definition first_row : ndarray := nd_slice array_2x2 0 1 0 2.

(** ** The demonstration driver *)

(** What the plotting sinks are handed. *)
Inductive artifact :=
| Plot2d (background_image filter corr : array2d) (max_loc : nat * nat)
         (save_path : String.string)
| Plot3d (surface : array2d) (save_path : String.string).

(** The driver runs over the log of primitive calls, the position in the
    stream of the global random generator and the plots requested so far. *)
Record world := World {
  primitive_log : list event;
  rng_position : nat;
  artifacts : list artifact
}.

Definition world_init : world :=
  {| primitive_log := []; rng_position := 0; artifacts := [] |}.

(** A call of the correlator or of the sweep from the driver: what it logs
    is added to the log of the driver. *)
Definition in_world {A} (m : M A) : ST world A := fun w =>
  let '(o, log) := run m in
  (o, {| primitive_log := primitive_log w ++ log; rng_position := rng_position w;
         artifacts := artifacts w |}).

Definition save_plot (p : artifact) : ST world unit := fun w =>
  (Returned tt, {| primitive_log := primitive_log w; rng_position := rng_position w;
                   artifacts := artifacts w ++ [p] |}).

(** [corr, max_loc = ...] and [average_corr, max_corr = ...]: the value
    must come apart in two. *)
Definition unpack_loc (r : correlation_result) : outcome (array2d * (nat * nat)) :=
  match r with
  | SurfaceWithLoc corr max_loc => Returned (corr, max_loc)
  | Surface _ => Raised ValueError
  end.

Definition unpack_both (r : sweep_result) : outcome (array2d * array2d) :=
  match r with
  | Both mean max => Returned (mean, max)
  | _ => Raised ValueError
  end.

Section Driver.

Variable rotate : array2d -> Z -> array2d.

(** The samples of the global generator behind [np.random.rand], in order. *)
Variable rand : nat -> Q.

Definition np_random_rand (h w : nat) : ST world array2d := fun wd =>
  (Returned {| shape := (h, w);
               data := map (fun k => rand (rng_position wd + k)) (seq 0 (h * w)) |},
   {| primitive_log := primitive_log wd;
      rng_position := rng_position wd + h * w;
      artifacts := artifacts wd |}).

Definition main (fuel : nat) : ST world unit :=
  background_image ← np_random_rand 100 100;
  filter ← np_random_rand 20 20;
  r ← in_world (cross_correlation background_image filter true);
  '(corr, max_loc) ← lift (unpack_loc r);
  _ ← save_plot (Plot2d background_image filter corr max_loc "2d_images.png"%string);
  r ← in_world (rotational_cc rotate fuel background_image filter 10 true true);
  '(average_corr, max_corr) ← lift (unpack_both r);
  _ ← save_plot (Plot3d average_corr "3d_avg_topography_plot.html"%string);
  save_plot (Plot3d max_corr "3d_max_topography_plot.html"%string).

End Driver.

(** ** More vocabulary *)

(** [a + c] and [c * a] for a scalar, as arrays. *)
Definition add_scalar (a : array2d) (c : Q) : array2d :=
  {| shape := shape a; data := map (fun x => x + c)%Q (data a) |}.


(** Two arrays of one shape whose samples are equal as rationals. *)
Definition same_samples (a b : array2d) : Prop :=
  shape a = shape b /\
  forall k, k < size a -> (nth k (data a) 0 == nth k (data b) 0)%Q.

(** ** More sample inputs *)

(** A background with no rows. *)
Definition background_0x4 : array2d := {| shape := (0, 4); data := [] |}.

(** A rotation primitive that leaves every filter alone. *)
Definition rotate_none (a : array2d) (angle : Z) : array2d := a.

(** The four surfaces and peaks of the sweep of step 100 over the sample
    background, and their mean and maximum. *)
Definition surfaces_100 : list array2d :=
  map (surface_at rotate_sample background_3x4 filter_2x2) (sweep_angles 100).

Definition locs_100 : list (nat * nat) :=
  map (fun a => peak (surface_at rotate_sample background_3x4 filter_2x2 a))
      (sweep_angles 100).

Definition mean_100 : array2d :=
  {| shape := shape background_3x4;
     data := map (fun i => Qmean (column surfaces_100 i)) (seq 0 (size background_3x4)) |}.

Definition max_100 : array2d :=
  {| shape := shape background_3x4;
     data := map (fun i => Qmaximum (column surfaces_100 i))
                 (seq 0 (size background_3x4)) |}.

(** The score a surface has at its reported peak. *)
Definition peak_value (s : array2d) : Q := item s (snd (peak s)) (fst (peak s)).

(** ** The sweep with a binary64 step

    Nothing in [rotational_cc] checks that the step is an integer.  With a
    Python float the running angle is a binary64 number and
    [filter_angle += angle] rounds on every pass. *)

Record sweep_state_float := SweepStateFloat {
  filter_angle_float : PrimFloat.float;
  all_correlations_float : list array2d;
  max_locs_float : list (nat * nat)
}.

(** [filter_angle = 0]; the integer 0 becomes the float 0.0 in the first
    addition. *)
Definition sweep_init_float : sweep_state_float :=
  {| filter_angle_float := PrimFloat.zero;
     all_correlations_float := [];
     max_locs_float := [] |}.

Section FloatSweep.

(** The rotation primitive at a float angle: any function. *)
Variable rotate : array2d -> PrimFloat.float -> array2d.

Definition loop_body_float (background_image filter : array2d)
    (angle : PrimFloat.float) (st : sweep_state_float) : M sweep_state_float :=
  let rotated_filter := rotate filter (filter_angle_float st) in
  r ← cross_correlation background_image rotated_filter true;
  match r with
  | SurfaceWithLoc corr max_loc =>
      mret {| filter_angle_float := PrimFloat.add (filter_angle_float st) angle;
              all_correlations_float := all_correlations_float st ++ [corr];
              max_locs_float := max_locs_float st ++ [max_loc] |}
  | Surface _ => raise ValueError
  end.

Fixpoint sweep_loop_float (fuel : nat) (background_image filter : array2d)
    (angle : PrimFloat.float) (st : sweep_state_float) : M sweep_state_float :=
  if PrimFloat.ltb (filter_angle_float st) 360%float then
    match fuel with
    | O => out_of_fuel
    | S fuel' =>
        st' ← loop_body_float background_image filter angle st;
        sweep_loop_float fuel' background_image filter angle st'
    end
  else mret st.

End FloatSweep.

(** The number of passes a finished loop has made: one surface per pass. *)
Definition passes_float (r : outcome sweep_state_float * list event) : option nat :=
  match fst r with
  | Returned st => Some (length (all_correlations_float st))
  | _ => None
  end.

(** The rational a finite binary64 number stands for. *)
Definition float_to_Q (x : PrimFloat.float) : Q :=
  match FloatOps.Prim2SF x with
  | SpecFloat.S754_finite s m e =>
      let v := if (0 <=? e)%Z then inject_Z (Z.pos m * 2 ^ e)
               else (Z.pos m # Pos.pow 2 (Z.to_pos (- e)))%Q in
      if s then Qopp v else v
  | _ => 0%Q
  end.

(** The binary64 number the literal [7.2] denotes. *)
Definition step_7_2 : PrimFloat.float := 0x1.ccccccccccccdp+2%float.

Definition rotate_none_float (a : array2d) (angle : PrimFloat.float) : array2d := a.
(** * Properties *)

(** ** Row-major buffers *)

Lemma length_row_major {A} (g : nat -> nat -> A) (w : nat) (rows : list nat) :
  length (flat_map (fun m => map (g m) (seq 0 w)) rows) = length rows * w.
Proof.
  induction rows as [|r rows IH]; simpl; [reflexivity|].
  rewrite length_app, length_map, length_seq, IH. reflexivity.
Qed.

Lemma nth_row_major_from {A} (g : nat -> nat -> A) (w h s i j : nat) (d : A) :
  i < h -> j < w ->
  nth (i * w + j) (flat_map (fun m => map (g m) (seq 0 w)) (seq s h)) d = g (s + i) j.
Proof.
  revert s i. induction h as [|h IH]; intros s i Hi Hj; [lia|].
  simpl. destruct i as [|i].
  - rewrite app_nth1 by (rewrite length_map, length_seq; lia).
    simpl. rewrite nth_indep with (d' := g s 0) by (rewrite length_map, length_seq; lia).
    rewrite (map_nth (g s) (seq 0 w) 0 j), seq_nth by lia.
    f_equal; lia.
  - rewrite app_nth2 by (rewrite length_map, length_seq; simpl; lia).
    rewrite length_map, length_seq.
    replace (S i * w + j - w) with (i * w + j) by (simpl; lia).
    rewrite IH by lia. f_equal; lia.
Qed.

Lemma nth_row_major {A} (g : nat -> nat -> A) (w h i j : nat) (d : A) :
  i < h -> j < w ->
  nth (i * w + j) (flat_map (fun m => map (g m) (seq 0 w)) (seq 0 h)) d = g i j.
Proof. intros. rewrite nth_row_major_from by assumption. reflexivity. Qed.

(** ** The correlation surface *)

Lemma correlate2d_wf (in1 in2 : array2d) : wf (correlate2d in1 in2).
Proof.
  unfold wf, size, height, width. simpl.
  rewrite length_row_major, length_seq. reflexivity.
Qed.

Lemma correlate2d_item (in1 in2 : array2d) (m n : nat) :
  m < height in1 -> n < width in1 ->
  item (correlate2d in1 in2) m n = correlate_cell in1 in2 m n.
Proof.
  intros Hm Hn. unfold item, width. simpl.
  apply (nth_row_major (correlate_cell in1 in2)); assumption.
Qed.

(** ** First maximum of a buffer *)

Lemma Qltb_lt (x y : Q) : Qltb x y = true <-> (x < y)%Q.
Proof.
  unfold Qltb. rewrite negb_true_iff. split.
  - intros Hb. apply Qnot_le_lt. intros Hle. apply Qle_bool_iff in Hle. congruence.
  - intros Hlt. destruct (Qle_bool y x) eqn:E; [|reflexivity].
    apply Qle_bool_iff in E. exfalso. exact (Qlt_not_le _ _ Hlt E).
Qed.

Lemma Qltb_ge (x y : Q) : Qltb x y = false <-> (y <= x)%Q.
Proof.
  unfold Qltb. rewrite negb_false_iff. apply Qle_bool_iff.
Qed.

Lemma argmax_from_first_max (l pre : list Q) (besti : nat) :
  first_max pre besti ->
  first_max (pre ++ l) (argmax_from (nth besti pre 0%Q) besti (length pre) l).
Proof.
  revert pre besti. induction l as [|x l IH]; intros pre besti Hfm.
  - simpl. rewrite app_nil_r. exact Hfm.
  - destruct Hfm as (Hlt & Hmax & Hfirst). simpl.
    assert (Hpre : forall k, k < length pre -> nth k (pre ++ [x]) 0%Q = nth k pre 0%Q)
      by (intros; apply app_nth1; assumption).
    assert (Hx : nth (length pre) (pre ++ [x]) 0%Q = x)
      by (rewrite app_nth2, Nat.sub_diag by lia; reflexivity).
    replace (pre ++ x :: l) with ((pre ++ [x]) ++ l) by (rewrite <- app_assoc; reflexivity).
    replace (S (length pre)) with (length (pre ++ [x])) by (rewrite length_app; simpl; lia).
    destruct (Qltb (nth besti pre 0%Q) x) eqn:E.
    + apply Qltb_lt in E.
      specialize (IH (pre ++ [x]) (length pre)). rewrite Hx in IH. apply IH.
      unfold first_max. rewrite length_app; simpl. repeat split.
      * lia.
      * intros k Hk. rewrite Hx. destruct (decide (k = length pre)) as [->|Hne].
        -- rewrite Hx. apply Qle_refl.
        -- rewrite Hpre by lia. apply Qle_trans with (nth besti pre 0%Q).
           ++ apply Hmax; lia.
           ++ apply Qlt_le_weak; exact E.
      * intros k Hk. rewrite Hx, Hpre by lia.
        apply Qle_lt_trans with (nth besti pre 0%Q); [apply Hmax; lia | exact E].
    + apply Qltb_ge in E.
      specialize (IH (pre ++ [x]) besti). rewrite (Hpre besti) in IH by lia. apply IH.
      unfold first_max. rewrite length_app; simpl. repeat split.
      * lia.
      * intros k Hk. rewrite (Hpre besti) by lia.
        destruct (decide (k = length pre)) as [->|Hne].
        -- rewrite Hx. exact E.
        -- rewrite Hpre by lia. apply Hmax; lia.
      * intros k Hk. rewrite (Hpre besti), (Hpre k) by lia. apply Hfirst; exact Hk.
Qed.

Lemma np_argmax_first_max (a : array2d) :
  0 < length (data a) ->
  exists idx, np_argmax a = Returned idx /\ first_max (data a) idx.
Proof.
  unfold np_argmax. destruct (data a) as [|x t] eqn:E; simpl; [lia|]. intros _.
  eexists; split; [reflexivity|].
  apply (argmax_from_first_max t [x] 0).
  repeat split; simpl; try lia.
  intros k Hk. replace k with 0 by lia. apply Qle_refl.
Qed.

(** ** The single-orientation correlator *)

Lemma peak_spec (corr : array2d) :
  wf corr -> 0 < size corr ->
  fst (peak corr) < width corr /\
  snd (peak corr) < height corr /\
  first_max (data corr) (snd (peak corr) * width corr + fst (peak corr)).
Proof.
  intros Hwf Hsz.
  destruct (np_argmax_first_max corr) as (idx & Hidx & Hfm); [rewrite Hwf; exact Hsz|].
  unfold peak. unfold np_argmax in Hidx.
  destruct (data corr) as [|x t] eqn:E; [discriminate|].
  injection Hidx as Hidx. rewrite Hidx. simpl fst; simpl snd.
  assert (Hw : 0 < width corr) by (unfold size in Hsz; lia).
  assert (Hlt : idx < height corr * width corr).
  { destruct Hfm as (Hlt & _). rewrite <- E, Hwf in Hlt. exact Hlt. }
  split; [apply Nat.mod_upper_bound; lia|].
  split; [apply Nat.Div0.div_lt_upper_bound; lia|].
  replace (idx / width corr * width corr + idx mod width corr) with idx
    by (rewrite (Nat.div_mod_eq idx (width corr)) at 1; lia).
  exact Hfm.
Qed.

Lemma cross_correlation_with_loc (background_image filter : array2d) (tr : list event) :
  0 < size background_image ->
  cross_correlation background_image filter true tr =
  (Returned (SurfaceWithLoc (correlate2d background_image filter)
                            (peak (correlate2d background_image filter))),
   tr ++ [EvCorrelate2d]).
Proof.
  intros Hsz. set (corr := correlate2d background_image filter).
  assert (Hwf : wf corr) by apply correlate2d_wf.
  assert (Hsz' : 0 < size corr) by exact Hsz.
  destruct (np_argmax_first_max corr) as (idx & Hidx & Hfm); [rewrite Hwf; exact Hsz'|].
  assert (Hlt : idx < fst (shape corr) * snd (shape corr)).
  { destruct Hfm as (Hlt & _). rewrite Hwf in Hlt. exact Hlt. }
  assert (Hpk : peak corr = (idx mod width corr, idx / width corr)).
  { unfold peak. unfold np_argmax in Hidx.
    destruct (data corr); [discriminate|]. injection Hidx as ->. reflexivity. }
  unfold cross_correlation, mbind, ST_bind, emit, lift, mret, ST_ret. fold corr.
  rewrite Hidx. unfold np_unravel_index.
  apply Nat.ltb_lt in Hlt. rewrite Hlt, Hpk. reflexivity.
Qed.

(** C4: with [return_max_loc=True] the call returns the surface and the pair
    [(x, y)] = (column, row) of the first maximum of the surface in row-major
    order; [x] is below the width and [y] below the height of the background,
    and no cell of the surface exceeds the cell [[y, x]]. *)
Theorem cross_correlation_max_loc (background_image filter : array2d) :
  0 < height background_image -> 0 < width background_image ->
  exists corr x y,
    run (cross_correlation background_image filter true)
      = (Returned (SurfaceWithLoc corr (x, y)), [EvCorrelate2d]) /\
    corr = correlate2d background_image filter /\
    x < width background_image /\
    y < height background_image /\
    first_max (data corr) (y * width corr + x) /\
    (forall i j, i < height corr -> j < width corr ->
                 (item corr i j <= item corr y x)%Q).
Proof.
  intros Hh Hw.
  assert (Hsz : 0 < size background_image) by (unfold size; lia).
  set (corr := correlate2d background_image filter).
  destruct (peak_spec corr (correlate2d_wf _ _) Hsz) as (Hx & Hy & Hfm).
  exists corr, (fst (peak corr)), (snd (peak corr)).
  split.
  { unfold run. rewrite cross_correlation_with_loc by exact Hsz.
    fold corr. destruct (peak corr); reflexivity. }
  split; [reflexivity|]. split; [exact Hx|]. split; [exact Hy|]. split; [exact Hfm|].
  intros i j Hi Hj. unfold item. apply Hfm.
  pose proof (correlate2d_wf background_image filter) as Hwf. fold corr in Hwf.
  rewrite Hwf. unfold size. nia.
Qed.

(** ** The sweep loop *)

Section SweepFacts.

Variable rotate : array2d -> Z -> array2d.

Lemma angles_from_S (start angle : Z) (n : nat) :
  angles_from start angle (S n) = start :: angles_from (start + angle)%Z angle n.
Proof.
  unfold angles_from. simpl. f_equal; [lia|].
  rewrite <- seq_shift, map_map. apply map_ext. intros k. lia.
Qed.

Lemma length_angles_from (start angle : Z) (n : nat) :
  length (angles_from start angle n) = n.
Proof. unfold angles_from. rewrite length_map, length_seq. reflexivity. Qed.

Lemma loop_body_runs (background_image filter : array2d) (angle : Z)
    (st : sweep_state) (tr : list event) :
  0 < size background_image ->
  loop_body rotate background_image filter angle st tr =
  (Returned {| filter_angle := filter_angle st + angle;
               all_correlations :=
                 all_correlations st
                 ++ [surface_at rotate background_image filter (filter_angle st)];
               max_locs :=
                 max_locs st
                 ++ [peak (surface_at rotate background_image filter (filter_angle st))] |},
   tr ++ sweep_events [filter_angle st]).
Proof.
  intros Hsz. unfold loop_body, mbind, ST_bind, emit.
  rewrite cross_correlation_with_loc by exact Hsz.
  unfold mret, ST_ret, surface_at, sweep_events. simpl.
  rewrite <- app_assoc. reflexivity.
Qed.

(** From a state whose next [n] angles are below 360 and whose [n]-th
    successor is not, the loop makes exactly [n] passes. *)
Lemma sweep_loop_runs (background_image filter : array2d) (angle : Z) (n : nat) :
  0 < size background_image ->
  forall (fuel : nat) (st : sweep_state) (tr : list event),
  n <= fuel ->
  Forall (fun a => (a < 360)%Z) (angles_from (filter_angle st) angle n) ->
  (360 <= filter_angle st + Z.of_nat n * angle)%Z ->
  sweep_loop rotate fuel background_image filter angle st tr =
  (Returned {| filter_angle := filter_angle st + Z.of_nat n * angle;
               all_correlations :=
                 all_correlations st
                 ++ map (surface_at rotate background_image filter)
                        (angles_from (filter_angle st) angle n);
               max_locs :=
                 max_locs st
                 ++ map (fun a => peak (surface_at rotate background_image filter a))
                        (angles_from (filter_angle st) angle n) |},
   tr ++ sweep_events (angles_from (filter_angle st) angle n)).
Proof.
  intros Hsz. induction n as [|n IH]; intros fuel st tr Hfuel Hlt Hge.
  - assert (E : (filter_angle st <? 360)%Z = false) by (apply Z.ltb_ge; lia).
    replace (filter_angle st + Z.of_nat 0 * angle)%Z with (filter_angle st) by lia.
    unfold angles_from, sweep_events. simpl. rewrite !app_nil_r.
    destruct fuel; simpl; rewrite E; destruct st; reflexivity.
  - rewrite angles_from_S in *. apply Forall_cons_1 in Hlt as [Hlt0 Hlt].
    destruct fuel as [|fuel]; [lia|].
    simpl. apply Z.ltb_lt in Hlt0. rewrite Hlt0.
    unfold mbind, ST_bind. rewrite loop_body_runs by exact Hsz.
    rewrite IH; simpl; [| lia | exact Hlt | lia].
    rewrite <- !app_assoc. simpl. do 3 f_equal. lia.
Qed.

(** While the angles to come stay below 360 the loop is still running when
    the fuel is spent. *)
Lemma sweep_loop_out_of_fuel (background_image filter : array2d) (angle : Z) :
  0 < size background_image ->
  forall (fuel : nat) (st : sweep_state) (tr : list event),
  Forall (fun a => (a < 360)%Z) (angles_from (filter_angle st) angle (S fuel)) ->
  sweep_loop rotate fuel background_image filter angle st tr =
  (OutOfFuel, tr ++ sweep_events (angles_from (filter_angle st) angle fuel)).
Proof.
  intros Hsz. induction fuel as [|fuel IH]; intros st tr Hlt;
    rewrite angles_from_S in Hlt; apply Forall_cons_1 in Hlt as [Hlt0 Hlt];
    apply Z.ltb_lt in Hlt0.
  - simpl. rewrite Hlt0. unfold out_of_fuel. rewrite app_nil_r. reflexivity.
  - rewrite (angles_from_S _ _ fuel). cbn [sweep_loop]. rewrite Hlt0.
    unfold mbind, ST_bind. rewrite loop_body_runs by exact Hsz.
    rewrite IH by exact Hlt. simpl. rewrite <- !app_assoc. reflexivity.
Qed.

(** Without progress the loop never leaves: every pass sees an angle below
    360, and the fuel, however large, runs out. *)
Lemma sweep_loop_stuck (background_image filter : array2d) (angle : Z) :
  0 < size background_image -> (angle <= 0)%Z ->
  forall (fuel : nat) (st : sweep_state) (tr : list event),
  (filter_angle st < 360)%Z ->
  sweep_loop rotate fuel background_image filter angle st tr =
  (OutOfFuel, tr ++ sweep_events (angles_from (filter_angle st) angle fuel)).
Proof.
  intros Hsz Hangle fuel st tr Hlt. apply sweep_loop_out_of_fuel; [exact Hsz|].
  unfold angles_from. apply List.Forall_forall. intros a Ha.
  apply in_map_iff in Ha as (k & <- & _). nia.
Qed.

(** [sweep_count] is the ceiling of [360 / angle]. *)
Lemma sweep_count_ceiling (angle : Z) :
  (0 < angle)%Z ->
  ((Z.of_nat (sweep_count angle) - 1) * angle < 360 <= Z.of_nat (sweep_count angle) * angle)%Z.
Proof.
  intros Hpos. unfold sweep_count.
  assert (Hq : (0 <= (360 + angle - 1) / angle)%Z) by (apply Z.div_pos; lia).
  rewrite Z2Nat.id by exact Hq.
  pose proof (Z.mul_div_le (360 + angle - 1) angle Hpos).
  pose proof (Z.mul_succ_div_gt (360 + angle - 1) angle Hpos).
  nia.
Qed.

Lemma sweep_angles_below_360 (angle : Z) :
  (0 < angle)%Z -> Forall (fun a => (0 <= a < 360)%Z) (sweep_angles angle).
Proof.
  intros Hpos. pose proof (sweep_count_ceiling angle Hpos) as [Hlt _].
  unfold sweep_angles, angles_from. apply List.Forall_forall. intros a Ha.
  apply in_map_iff in Ha as (k & <- & Hk). apply in_seq in Hk. nia.
Qed.

End SweepFacts.

(** ** Reductions along the first axis *)

Lemma reduce_axis0_same_shape (red : list Q -> Q) (l : list array2d) (shp : nat * nat) :
  l <> [] -> Forall (fun a => shape a = shp) l ->
  reduce_axis0 red l =
  Returned {| shape := shp;
              data := map (fun i => red (column l i)) (seq 0 (fst shp * snd shp)) |}.
Proof.
  intros Hne Hall. destruct l as [|a t]; [congruence|].
  apply Forall_cons_1 in Hall as [Ha Ht]. unfold reduce_axis0.
  assert (E : forallb (fun b => bool_decide (shape b = shape a)) t = true).
  { apply forallb_forall. intros b Hb. apply bool_decide_eq_true.
    rewrite List.Forall_forall in Ht. rewrite (Ht b Hb), Ha. reflexivity. }
  rewrite E. unfold size, height, width. rewrite Ha. reflexivity.
Qed.

Lemma Qmaximum_fold_spec (t : list Q) (x : Q) :
  let m := fold_left (fun m y => if Qltb m y then y else m) t x in
  In m (x :: t) /\ Forall (fun v => (v <= m)%Q) (x :: t).
Proof.
  revert x. induction t as [|y t IH]; intros x; simpl.
  - split; [left; reflexivity|]. repeat constructor. apply Qle_refl.
  - destruct (Qltb x y) eqn:E.
    + apply Qltb_lt in E. destruct (IH y) as [Hin Hall]. simpl in Hin, Hall. split.
      * right. exact Hin.
      * apply Forall_cons_1 in Hall as [Hy Ht]. constructor; [|constructor; assumption].
        apply Qle_trans with y; [apply Qlt_le_weak; exact E | exact Hy].
    + apply Qltb_ge in E. destruct (IH x) as [Hin Hall]. simpl in Hin, Hall. split.
      * destruct Hin as [Hin|Hin]; [left; exact Hin | right; right; exact Hin].
      * apply Forall_cons_1 in Hall as [Hx Ht]. constructor; [exact Hx|].
        constructor; [|exact Ht]. apply Qle_trans with x; assumption.
Qed.

(** [Qmaximum] picks a sample of the list that no other sample exceeds. *)
Lemma Qmaximum_spec (l : list Q) :
  l <> [] -> In (Qmaximum l) l /\ Forall (fun v => (v <= Qmaximum l)%Q) l.
Proof.
  destruct l as [|x t]; [congruence|]. intros _. apply Qmaximum_fold_spec.
Qed.

Lemma nth_map_seq {A} (g : nat -> A) (n i : nat) (d : A) :
  i < n -> nth i (map g (seq 0 n)) d = g i.
Proof.
  intros Hi. rewrite nth_indep with (d' := g 0) by (rewrite length_map, length_seq; exact Hi).
  rewrite (map_nth g (seq 0 n) 0 i), seq_nth by exact Hi. reflexivity.
Qed.

(** ** The rotational sweep *)

Section RotationalSweep.

Variable rotate : array2d -> Z -> array2d.

Lemma sweep_loop_valid_step (background_image filter : array2d) (angle : Z) (fuel : nat) :
  0 < size background_image -> (0 < angle)%Z -> sweep_count angle <= fuel ->
  sweep_loop rotate fuel background_image filter angle sweep_init [] =
  (Returned {| filter_angle := Z.of_nat (sweep_count angle) * angle;
               all_correlations :=
                 map (surface_at rotate background_image filter) (sweep_angles angle);
               max_locs :=
                 map (fun a => peak (surface_at rotate background_image filter a))
                     (sweep_angles angle) |},
   sweep_events (sweep_angles angle)).
Proof.
  intros Hsz Hpos Hfuel.
  pose proof (sweep_count_ceiling angle Hpos) as [_ Hge].
  rewrite (sweep_loop_runs rotate background_image filter angle (sweep_count angle) Hsz);
    simpl; [reflexivity | exact Hfuel | | lia].
  eapply Forall_impl; [apply sweep_angles_below_360; exact Hpos|].
  simpl. intros a Ha. lia.
Qed.

Lemma sweep_count_pos (angle : Z) : (0 < angle)%Z -> 0 < sweep_count angle.
Proof. intros Hpos. pose proof (sweep_count_ceiling angle Hpos). nia. Qed.

Lemma sweep_surfaces_shape (background_image filter : array2d) (angles : list Z) :
  Forall (fun s => shape s = shape background_image)
         (map (surface_at rotate background_image filter) angles).
Proof.
  apply List.Forall_forall. intros s Hs. apply in_map_iff in Hs as (a & <- & _).
  reflexivity.
Qed.

Lemma sweep_surfaces_nonempty (background_image filter : array2d) (angle : Z) :
  (0 < angle)%Z ->
  map (surface_at rotate background_image filter) (sweep_angles angle) <> [].
Proof.
  intros Hpos Hnil. apply (f_equal (@length _)) in Hnil.
  unfold sweep_angles in Hnil. rewrite length_map, length_angles_from in Hnil.
  pose proof (sweep_count_pos angle Hpos). simpl in Hnil. lia.
Qed.

(** A valid sweep: the loop runs to its end and the flags then pick the
    result. *)
Lemma rotational_cc_valid_run (background_image filter : array2d)
    (angle : Z) (return_average return_max : bool) (fuel : nat) :
  0 < size background_image -> (0 < angle < 360)%Z -> sweep_count angle <= fuel ->
  let surfaces := map (surface_at rotate background_image filter) (sweep_angles angle) in
  let locs := map (fun a => peak (surface_at rotate background_image filter a))
                  (sweep_angles angle) in
  let reduced red :=
    {| shape := shape background_image;
       data := map (fun i => red (column surfaces i)) (seq 0 (size background_image)) |} in
  np_mean_axis0 surfaces = Returned (reduced Qmean) /\
  np_max_axis0 surfaces = Returned (reduced Qmaximum) /\
  run (rotational_cc rotate fuel background_image filter angle return_average return_max)
    = (Returned (match return_average, return_max with
                 | true, true => Both (reduced Qmean) (reduced Qmaximum)
                 | true, false => Average (reduced Qmean)
                 | false, true => Maximum (reduced Qmaximum)
                 | false, false => FullSweep surfaces locs
                 end),
       sweep_events (sweep_angles angle)).
Proof.
  intros Hsz [Hpos Hlt] Hfuel surfaces locs reduced.
  assert (Hne : surfaces <> []) by (apply sweep_surfaces_nonempty; exact Hpos).
  assert (Hshape : Forall (fun s => shape s = shape background_image) surfaces)
    by apply sweep_surfaces_shape.
  pose proof (reduce_axis0_same_shape Qmean surfaces _ Hne Hshape) as Hmean.
  pose proof (reduce_axis0_same_shape Qmaximum surfaces _ Hne Hshape) as Hmax.
  split; [exact Hmean|]. split; [exact Hmax|].
  unfold run, rotational_cc. apply Z.ltb_lt in Hlt. rewrite Hlt.
  unfold mbind, ST_bind.
  rewrite sweep_loop_valid_step by assumption. simpl all_correlations; simpl max_locs.
  fold surfaces. fold locs.
  destruct return_average, return_max; simpl;
    unfold lift, np_mean_axis0, np_max_axis0; rewrite ?Hmean, ?Hmax; reflexivity.
Qed.

(** C1: for a valid step the sweep returns, and what it returns is chosen by
    the two flags once the loop is over: both flags give the pair (mean
    surface, maximum surface) and no peak list, [return_average] alone the
    mean surface, [return_max] alone the maximum surface, neither the pair
    (all surfaces in angle order, all peak locations in angle order).  The
    mean and the maximum are taken cell by cell over the surfaces, and the
    loop does the same work whatever the flags. *)
Theorem rotational_cc_return_shape (background_image filter : array2d)
    (angle : Z) (return_average return_max : bool) (fuel : nat) :
  0 < height background_image -> 0 < width background_image ->
  (0 < angle < 360)%Z ->
  sweep_count angle <= fuel ->
  let surfaces := map (surface_at rotate background_image filter) (sweep_angles angle) in
  let locs := map (fun a => peak (surface_at rotate background_image filter a))
                  (sweep_angles angle) in
  exists mean max,
    np_mean_axis0 surfaces = Returned mean /\
    np_max_axis0 surfaces = Returned max /\
    run (rotational_cc rotate fuel background_image filter angle return_average return_max)
      = (Returned (match return_average, return_max with
                   | true, true => Both mean max
                   | true, false => Average mean
                   | false, true => Maximum max
                   | false, false => FullSweep surfaces locs
                   end),
         sweep_events (sweep_angles angle)) /\
    shape mean = shape background_image /\
    shape max = shape background_image /\
    (forall i, i < size background_image ->
       nth i (data mean) 0%Q = Qmean (column surfaces i) /\
       nth i (data max) 0%Q = Qmaximum (column surfaces i) /\
       In (nth i (data max) 0%Q) (column surfaces i) /\
       Forall (fun v => (v <= nth i (data max) 0)%Q) (column surfaces i)).
Proof.
  intros Hh Hw Hangle Hfuel surfaces locs.
  assert (Hsz : 0 < size background_image) by (unfold size; lia).
  destruct (rotational_cc_valid_run background_image filter angle
              return_average return_max fuel Hsz Hangle Hfuel) as (Hmean & Hmax & Hrun).
  eexists; eexists.
  split; [exact Hmean|]. split; [exact Hmax|]. split; [exact Hrun|].
  split; [reflexivity|]. split; [reflexivity|].
  intros i Hi. simpl data. rewrite !nth_map_seq by exact Hi.
  split; [reflexivity|]. split; [reflexivity|].
  apply Qmaximum_spec. unfold column. intros Hnil.
  apply (sweep_surfaces_nonempty background_image filter angle); [lia|].
  apply map_eq_nil in Hnil. exact Hnil.
Qed.

Lemma sweep_angles_last (angle : Z) :
  (0 < angle)%Z ->
  last (sweep_angles angle) = Some ((Z.of_nat (sweep_count angle) - 1) * angle)%Z.
Proof.
  intros Hpos. pose proof (sweep_count_pos angle Hpos) as Hn.
  unfold sweep_angles, angles_from.
  destruct (sweep_count angle) as [|n]; [lia|].
  rewrite seq_S, map_app. simpl. rewrite last_snoc. f_equal. lia.
Qed.

(** C2, for integer steps: for an integer step in (0, 360) the loop
    terminates, and so does the sweep under every choice of flags.  It tests the angles 0, step, 2 step, ...
    in that order and makes exactly [sweep_count step] passes, the ceiling
    of 360 / step (36 for step 10, 52 for step 7): that much fuel is enough
    and less is not.  Every tested angle, the last one included, is below
    360. *)
Theorem sweep_iteration_count (background_image filter : array2d)
    (angle : Z) (fuel : nat) :
  0 < height background_image -> 0 < width background_image ->
  (0 < angle < 360)%Z ->
  sweep_count angle <= fuel ->
  exists st,
    run (sweep_loop rotate fuel background_image filter angle sweep_init)
      = (Returned st, sweep_events (sweep_angles angle)) /\
    (forall return_average return_max, exists result,
        run (rotational_cc rotate fuel background_image filter angle
                           return_average return_max)
          = (Returned result, sweep_events (sweep_angles angle))) /\
    (forall less, less < sweep_count angle ->
        fst (run (sweep_loop rotate less background_image filter angle sweep_init))
          = OutOfFuel) /\
    (360 <= filter_angle st)%Z /\
    length (all_correlations st) = sweep_count angle /\
    length (max_locs st) = sweep_count angle /\
    length (sweep_angles angle) = sweep_count angle /\
    ((Z.of_nat (sweep_count angle) - 1) * angle < 360
       <= Z.of_nat (sweep_count angle) * angle)%Z /\
    (forall k, k < sweep_count angle ->
               nth k (sweep_angles angle) 0%Z = (Z.of_nat k * angle)%Z) /\
    head (sweep_angles angle) = Some 0%Z /\
    last (sweep_angles angle) = Some ((Z.of_nat (sweep_count angle) - 1) * angle)%Z /\
    Forall (fun a => (0 <= a < 360)%Z) (sweep_angles angle) /\
    sweep_count 10 = 36 /\
    sweep_count 7 = 52 /\
    last (sweep_angles 7) = Some 357%Z.
Proof.
  intros Hh Hw [Hpos Hlt] Hfuel.
  assert (Hsz : 0 < size background_image) by (unfold size; lia).
  pose proof (sweep_count_ceiling angle Hpos) as Hceil.
  pose proof (sweep_count_pos angle Hpos) as Hn.
  eexists. split.
  { unfold run. apply sweep_loop_valid_step; assumption. }
  split.
  { intros return_average return_max. eexists.
    apply (rotational_cc_valid_run background_image filter angle
             return_average return_max fuel Hsz (conj Hpos Hlt) Hfuel). }
  split.
  { intros less Hless. unfold run.
    rewrite sweep_loop_out_of_fuel; [reflexivity | exact Hsz |].
    unfold angles_from. apply List.Forall_forall. intros a Ha.
    apply in_map_iff in Ha as (k & <- & Hk). apply in_seq in Hk.
    simpl filter_angle. nia. }
  simpl. split; [lia|].
  split; [unfold sweep_angles; rewrite length_map, length_angles_from; reflexivity|].
  split; [unfold sweep_angles; rewrite length_map, length_angles_from; reflexivity|].
  split; [apply length_angles_from|].
  split; [exact Hceil|].
  split.
  { intros k Hk. unfold sweep_angles, angles_from. rewrite nth_map_seq by exact Hk. lia. }
  split.
  { unfold sweep_angles, angles_from. destruct (sweep_count angle); [lia|]. reflexivity. }
  split; [apply sweep_angles_last; exact Hpos|].
  split; [apply sweep_angles_below_360; exact Hpos|].
  split; [reflexivity|]. split; reflexivity.
Qed.

(** With a step of 360 or more the assertion fails at once: no rotation and
    no correlation has been requested. *)
Lemma rotational_cc_assertion (background_image filter : array2d)
    (angle : Z) (return_average return_max : bool) (fuel : nat) :
  (360 <= angle)%Z ->
  run (rotational_cc rotate fuel background_image filter angle return_average return_max)
    = (Raised AssertionError, []).
Proof.
  intros Hge. unfold run, rotational_cc.
  apply Z.ltb_ge in Hge. rewrite Hge. reflexivity.
Qed.

(** C3: a zero or negative step passes the assertion; the loop then rotates
    and correlates on every pass and never ends, so no error is raised,
    whatever the fuel. *)
Theorem rotational_cc_nonpositive_step (background_image filter : array2d)
    (angle : Z) (return_average return_max : bool) (fuel : nat) :
  0 < height background_image -> 0 < width background_image ->
  (angle <= 0)%Z ->
  run (rotational_cc rotate fuel background_image filter angle return_average return_max)
    = (OutOfFuel, sweep_events (angles_from 0 angle fuel)) /\
  length (sweep_events (angles_from 0 angle fuel)) = 2 * fuel.
Proof.
  intros Hh Hw Hle.
  assert (Hsz : 0 < size background_image) by (unfold size; lia).
  split.
  - unfold run, rotational_cc.
    assert (E : (angle <? 360)%Z = true) by (apply Z.ltb_lt; lia). rewrite E.
    unfold mbind, ST_bind.
    rewrite sweep_loop_stuck by (try assumption; simpl; lia). reflexivity.
  - rewrite <- (length_angles_from 0 angle fuel) at 2.
    unfold sweep_events. induction (angles_from 0 angle fuel) as [|a l IH];
      simpl; [reflexivity|]. rewrite IH. lia.
Qed.

Lemma cross_correlation_surface (background_image filter : array2d) (b : bool)
    (tr tr' : list event) (r : correlation_result) :
  cross_correlation background_image filter b tr = (Returned r, tr') ->
  surface_of r = correlate2d background_image filter.
Proof.
  unfold cross_correlation, mbind, ST_bind, emit, lift, mret, ST_ret.
  destruct b.
  - destruct (np_argmax _); try discriminate.
    destruct (np_unravel_index _ _) as [[y x]| |]; try discriminate.
    intros [= <- _]. reflexivity.
  - intros [= <- _]. reflexivity.
Qed.

Lemma loop_body_shapes (background_image filter : array2d) (angle : Z)
    (st st' : sweep_state) (tr tr' : list event) :
  loop_body rotate background_image filter angle st tr = (Returned st', tr') ->
  exists corr, all_correlations st' = all_correlations st ++ [corr] /\
               shape corr = shape background_image.
Proof.
  unfold loop_body, mbind at 1, ST_bind at 1, emit. unfold mbind, ST_bind.
  destruct (cross_correlation _ _ _ _) as [[r| |] tr1] eqn:E; try discriminate.
  apply cross_correlation_surface in E.
  destruct r as [corr|corr loc]; [discriminate|].
  intros [= <- _]. exists corr. split; [reflexivity|].
  simpl in E. rewrite E. reflexivity.
Qed.

(** Invariant of the loop: every surface collected so far has the shape of
    the background. *)
Lemma sweep_loop_shapes (background_image filter : array2d) (angle : Z) (fuel : nat) :
  forall (st st' : sweep_state) (tr tr' : list event),
  Forall (fun s => shape s = shape background_image) (all_correlations st) ->
  sweep_loop rotate fuel background_image filter angle st tr = (Returned st', tr') ->
  Forall (fun s => shape s = shape background_image) (all_correlations st').
Proof.
  induction fuel as [|fuel IH]; intros st st' tr tr' Hinv; simpl.
  - destruct (filter_angle st <? 360)%Z; [discriminate|].
    intros [= <- _]. exact Hinv.
  - destruct (filter_angle st <? 360)%Z; [|intros [= <- _]; exact Hinv].
    unfold mbind, ST_bind.
    destruct (loop_body _ _ _ _ _ _) as [[st1| |] tr1] eqn:E; try discriminate.
    apply loop_body_shapes in E as (corr & Hall & Hshape).
    apply IH. rewrite Hall. apply Forall_app. split; [exact Hinv|].
    constructor; [exact Hshape | constructor].
Qed.

(** C5: for a filter no larger than the background, the correlator returns a
    surface with exactly the shape of the background, whatever the shape of
    the filter; and every surface a sweep collects has that shape. *)
Theorem cross_correlation_same_shape (background_image filter : array2d) :
  height filter <= height background_image ->
  width filter <= width background_image ->
  run (cross_correlation background_image filter false)
    = (Returned (Surface (correlate2d background_image filter)), [EvCorrelate2d]) /\
  shape (correlate2d background_image filter) = shape background_image /\
  wf (correlate2d background_image filter) /\
  (forall b tr r tr',
      cross_correlation background_image filter b tr = (Returned r, tr') ->
      shape (surface_of r) = shape background_image) /\
  (forall fuel angle surfaces locs tr,
      run (rotational_cc rotate fuel background_image filter angle false false)
        = (Returned (FullSweep surfaces locs), tr) ->
      Forall (fun s => shape s = shape background_image) surfaces).
Proof.
  intros _ _.
  split; [reflexivity|]. split; [reflexivity|]. split; [apply correlate2d_wf|].
  split.
  - intros b tr r tr' E. apply cross_correlation_surface in E. rewrite E. reflexivity.
  - intros fuel angle surfaces locs tr. unfold run, rotational_cc.
    destruct (angle <? 360)%Z; [|discriminate].
    unfold mbind, ST_bind.
    destruct (sweep_loop _ _ _ _ _ _ _) as [[st| |] tr1] eqn:E; try discriminate.
    simpl. intros [= <- _ _].
    eapply sweep_loop_shapes; [|exact E]. constructor.
Qed.

End RotationalSweep.

Lemma flat_map_rows {A} (g : nat -> nat -> A) (w : nat) (rows : list nat) :
  flat_map (fun j => map (fun k => g j k) (seq 0 w)) rows =
  map (fun p => g (fst p) (snd p)) (flat_map (fun j => map (pair j) (seq 0 w)) rows).
Proof.
  induction rows as [|r rows IH]; simpl; [reflexivity|].
  rewrite map_app, map_map, IH. reflexivity.
Qed.

Lemma in_window_indices (h w : nat) (p : nat * nat) :
  In p (window_indices h w) -> fst p < h /\ snd p < w.
Proof.
  unfold window_indices. intros Hp.
  apply in_flat_map in Hp as (j & Hj & Hp).
  apply in_map_iff in Hp as (k & <- & Hk).
  apply in_seq in Hj. apply in_seq in Hk. simpl. lia.
Qed.

Lemma correlate_cell_window (in1 in2 : array2d) (m n : nat) :
  correlate_cell in1 in2 m n =
  Qsum (map (fun p =>
               (item in1 (reflect_symm_index
                            (Z.of_nat m - (Z.of_nat (height in2) - 1) / 2 + Z.of_nat (fst p))
                            (height in1))
                         (reflect_symm_index
                            (Z.of_nat n - (Z.of_nat (width in2) - 1) / 2 + Z.of_nat (snd p))
                            (width in1))
                * item in2 (fst p) (snd p))%Q)
            (window_indices (height in2) (width in2))).
Proof.
  unfold correlate_cell, window_indices. cbv zeta.
  rewrite (flat_map_rows (fun j k => _)). reflexivity.
Qed.

Lemma Qsum_cons (x : Q) (l : list Q) : Qsum (x :: l) = (x + Qsum l)%Q.
Proof. reflexivity. Qed.

(** Two weightings of the same samples that differ by at most [eps] cell by
    cell give sums that differ by at most [eps] times the total magnitude of
    the samples. *)
Lemma Qsum_weighted_close {X} (L : list X) (a r f : X -> Q) (eps : Q) :
  (forall p, In p L -> (Qabs (r p - f p) <= eps)%Q) ->
  (Qabs (Qsum (map (fun p => a p * r p)%Q L) - Qsum (map (fun p => a p * f p)%Q L))
   <= eps * Qsum (map (fun p => Qabs (a p)) L))%Q.
Proof.
  induction L as [|p L IH]; intros Hclose.
  - simpl. assert (E1 : (0 - 0 == 0)%Q) by ring. rewrite E1.
    assert (E2 : (eps * 0 == 0)%Q) by ring. rewrite E2. apply Qle_refl.
  - rewrite !map_cons, !Qsum_cons.
    set (Sr := Qsum (map (fun p => (a p * r p)%Q) L)) in *.
    set (Sf := Qsum (map (fun p => (a p * f p)%Q) L)) in *.
    set (Sa := Qsum (map (fun p => Qabs (a p)) L)) in *.
    assert (E1 : (a p * r p + Sr - (a p * f p + Sf) == (r p - f p) * a p + (Sr - Sf))%Q)
      by ring.
    rewrite E1. eapply Qle_trans; [apply Qabs_triangle|].
    assert (E2 : (eps * (Qabs (a p) + Sa) == eps * Qabs (a p) + eps * Sa)%Q) by ring.
    rewrite E2. apply Qplus_le_compat.
    + rewrite Qabs_Qmult. apply Qmult_le_compat_r; [|apply Qabs_nonneg].
      apply Hclose. left. reflexivity.
    + apply IH. intros q Hq. apply Hclose. right. exact Hq.
Qed.

(** Filters of one shape that agree within [eps] cell by cell give surfaces
    that agree within [eps] times the magnitude of the background under the
    window. *)
Lemma correlate2d_close (background_image r f : array2d) (eps : Q) :
  shape r = shape f ->
  (forall j k, j < height f -> k < width f ->
               (Qabs (item r j k - item f j k) <= eps)%Q) ->
  forall m n, m < height background_image -> n < width background_image ->
  (Qabs (item (correlate2d background_image r) m n
         - item (correlate2d background_image f) m n)
   <= eps * window_mass background_image f m n)%Q.
Proof.
  intros Hshape Hclose m n Hm Hn.
  rewrite !correlate2d_item by assumption.
  rewrite !correlate_cell_window. unfold window_mass, height, width.
  rewrite Hshape. fold (height f) (width f) (height background_image) (width background_image).
  apply (Qsum_weighted_close (window_indices (height f) (width f))
           (fun p => item background_image
                       (reflect_symm_index
                          (Z.of_nat m - (Z.of_nat (height f) - 1) / 2 + Z.of_nat (fst p))
                          (height background_image))
                       (reflect_symm_index
                          (Z.of_nat n - (Z.of_nat (width f) - 1) / 2 + Z.of_nat (snd p))
                          (width background_image)))
           (fun p => item r (fst p) (snd p))
           (fun p => item f (fst p) (snd p))).
  intros p Hp. apply in_window_indices in Hp as [Hj Hk]. apply Hclose; assumption.
Qed.

Section RotationAtZero.

Variable rotate : array2d -> Z -> array2d.

(** The loop only ever appends to the list of surfaces. *)
Lemma sweep_loop_extends (background_image filter : array2d) (angle : Z) (fuel : nat) :
  forall (st st' : sweep_state) (tr tr' : list event),
  sweep_loop rotate fuel background_image filter angle st tr = (Returned st', tr') ->
  exists more, all_correlations st' = all_correlations st ++ more.
Proof.
  induction fuel as [|fuel IH]; intros st st' tr tr'; simpl.
  - destruct (filter_angle st <? 360)%Z; [discriminate|].
    intros [= <- _]. exists []. rewrite app_nil_r. reflexivity.
  - destruct (filter_angle st <? 360)%Z;
      [|intros [= <- _]; exists []; rewrite app_nil_r; reflexivity].
    unfold mbind, ST_bind.
    destruct (loop_body _ _ _ _ _ _) as [[st1| |] tr1] eqn:E; try discriminate.
    apply loop_body_shapes in E as (corr & Hall & _).
    intros Hloop. apply IH in Hloop as (more & Hmore).
    exists (corr :: more). rewrite Hmore, Hall, <- app_assoc. reflexivity.
Qed.

(** C7: the first pass of the sweep rotates the filter by 0 degrees and
    correlates the result with the unrotated background.  If the rotation
    primitive at 0 degrees keeps the shape and returns the filter within
    [eps] cell by cell, the first surface has the shape of the surface of a
    direct call and agrees with it cell by cell within [eps] times the
    magnitude of the background under the window; if it returns the filter
    itself, the two surfaces are equal.  It is the first surface of every
    full sweep that returns. *)
Theorem first_surface_matches_direct_call (background_image filter : array2d)
    (angle : Z) (eps : Q) :
  0 < height background_image -> 0 < width background_image ->
  shape (rotate filter 0) = shape filter ->
  (forall j k, j < height filter -> k < width filter ->
               (Qabs (item (rotate filter 0) j k - item filter j k) <= eps)%Q) ->
  exists st first direct,
    run (loop_body rotate background_image filter angle sweep_init)
      = (Returned st, [EvRotate 0; EvCorrelate2d]) /\
    all_correlations st = [first] /\
    run (cross_correlation background_image filter false)
      = (Returned (Surface direct), [EvCorrelate2d]) /\
    shape first = shape direct /\
    (forall m n, m < height background_image -> n < width background_image ->
       (Qabs (item first m n - item direct m n)
        <= eps * window_mass background_image filter m n)%Q) /\
    (rotate filter 0 = filter -> first = direct) /\
    (forall fuel surfaces locs tr,
       run (rotational_cc rotate fuel background_image filter angle false false)
         = (Returned (FullSweep surfaces locs), tr) ->
       head surfaces = Some first).
Proof.
  intros Hh Hw Hshape Hclose.
  assert (Hsz : 0 < size background_image) by (unfold size; lia).
  exists {| filter_angle := 0 + angle;
            all_correlations := [surface_at rotate background_image filter 0];
            max_locs := [peak (surface_at rotate background_image filter 0)] |},
         (surface_at rotate background_image filter 0),
         (correlate2d background_image filter).
  split; [unfold run; rewrite loop_body_runs by exact Hsz; reflexivity|].
  split; [reflexivity|]. split; [reflexivity|]. split; [reflexivity|].
  split; [apply correlate2d_close; assumption|].
  split; [intros E; unfold surface_at; rewrite E; reflexivity|].
  intros fuel surfaces locs tr. unfold run, rotational_cc.
  destruct (angle <? 360)%Z; [|discriminate].
  destruct fuel as [|fuel]; [discriminate|].
  unfold mbind at 1, ST_bind at 1. simpl sweep_loop.
  unfold mbind at 1, ST_bind at 1. rewrite loop_body_runs by exact Hsz.
  destruct (sweep_loop _ _ _ _ _ _ _) as [[st| |] tr1] eqn:E; try discriminate.
  apply sweep_loop_extends in E as (more & Hmore). simpl in Hmore.
  simpl. intros [= <- _ _]. rewrite Hmore. reflexivity.
Qed.

End RotationAtZero.

(** ** Arrays in the store *)

Lemma map_flat_map {A B C} (f : B -> C) (g : A -> list B) (l : list A) :
  map f (flat_map g l) = flat_map (fun x => map f (g x)) l.
Proof.
  induction l as [|x l IH]; simpl; [reflexivity|]. rewrite map_app, IH. reflexivity.
Qed.

Lemma map_nth_seq (l : list Q) :
  map (fun k => nth k l 0%Q) (seq 0 (length l)) = l.
Proof.
  apply nth_ext with (d := 0%Q) (d' := 0%Q).
  - rewrite length_map, length_seq. reflexivity.
  - intros n Hn. rewrite length_map, length_seq in Hn.
    rewrite nth_map_seq by exact Hn. reflexivity.
Qed.

Lemma map_add_seq (c w : nat) : map (fun j => c + j) (seq 0 w) = seq c w.
Proof.
  revert c. induction w as [|w IH]; intros c; simpl; [reflexivity|].
  f_equal; [lia|]. rewrite <- seq_shift, map_map, <- (IH (S c)).
  apply map_ext. intros j. lia.
Qed.

Lemma row_major_seq (w h s : nat) :
  flat_map (fun i => map (fun j => 0 + i * w + j * 1) (seq 0 w)) (seq s h)
  = seq (s * w) (h * w).
Proof.
  revert s. induction h as [|h IH]; intros s; simpl; [reflexivity|].
  rewrite IH, seq_app. f_equal; [|f_equal; lia].
  rewrite <- (map_add_seq (s * w) w). apply map_ext. intros j. lia.
Qed.

Lemma view_indices_contiguous (a : ndarray) :
  contiguous a -> view_indices a = seq 0 (fst (dims a) * snd (dims a)).
Proof.
  intros [Hoff Hstr]. unfold view_indices. rewrite Hoff, Hstr. simpl.
  apply (row_major_seq (snd (dims a)) (fst (dims a)) 0).
Qed.

Lemma length_view_indices (a : ndarray) :
  length (view_indices a) = fst (dims a) * snd (dims a).
Proof.
  unfold view_indices.
  rewrite (length_row_major (fun i j => offset a + i * fst (strides a) + j * snd (strides a))).
  rewrite length_seq. reflexivity.
Qed.

Lemma length_contents (σ : heap) (a : ndarray) :
  length (contents σ a) = fst (dims a) * snd (dims a).
Proof. unfold contents. rewrite length_map. apply length_view_indices. Qed.

Lemma holds_contents (σ : heap) (a : ndarray) (v : array2d) :
  holds σ a v -> contents σ a = data v.
Proof.
  intros (Hc & Hd & Hb & Hwf). unfold contents, buffer.
  rewrite view_indices_contiguous by exact Hc. rewrite Hb. simpl.
  rewrite Hd. fold (height v) (width v) (size v). rewrite <- Hwf.
  apply map_nth_seq.
Qed.

Lemma holds_value (σ : heap) (a : ndarray) (v : array2d) :
  holds σ a v -> value σ a = v.
Proof.
  intros Hh. unfold value. rewrite (holds_contents σ a v Hh).
  destruct Hh as (_ & -> & _). destruct v; reflexivity.
Qed.

Lemma new_array_spec (shp : nat * nat) (buf : list Q) (σ : heap) :
  length buf = fst shp * snd shp ->
  exists a, new_array shp buf σ = (Returned a, <[base a := buf]> σ) /\
            σ !! base a = None /\
            holds (<[base a := buf]> σ) a {| shape := shp; data := buf |}.
Proof.
  intros Hlen.
  exists {| base := fresh (dom σ); offset := 0; dims := shp; strides := (snd shp, 1) |}.
  split; [reflexivity|]. simpl.
  split; [apply not_elem_of_dom, is_fresh|].
  repeat split; simpl; try apply lookup_insert_eq. exact Hlen.
Qed.

(** A buffer other than that of [a] may change without [a] noticing. *)
Lemma holds_frame_ne (σ : heap) (a : ndarray) (v : array2d) (l : nat) (buf : list Q) :
  holds σ a v -> base a <> l -> holds (<[l := buf]> σ) a v.
Proof.
  intros (Hc & Hd & Hb & Hwf) Hne. repeat split; try assumption; try apply Hc.
  rewrite lookup_insert_ne by congruence. exact Hb.
Qed.

Lemma holds_fresh_ne (σ : heap) (a : ndarray) (v : array2d) (l : nat) :
  holds σ a v -> σ !! l = None -> base a <> l.
Proof. intros (_ & _ & Hb & _) Hfresh E. rewrite E in Hb. congruence. Qed.

(** Allocation leaves the arrays already in the store as they are. *)
Lemma holds_frame (σ : heap) (a : ndarray) (v : array2d) (l : nat) (buf : list Q) :
  holds σ a v -> σ !! l = None -> holds (<[l := buf]> σ) a v.
Proof.
  intros Hh Hfresh. apply holds_frame_ne; [exact Hh|].
  eapply holds_fresh_ne; eassumption.
Qed.

Lemma contents_frame (σ : heap) (a : ndarray) (l : nat) (buf : list Q) :
  base a <> l -> contents (<[l := buf]> σ) a = contents σ a.
Proof.
  intros Hne. unfold contents, buffer. rewrite lookup_insert_ne by congruence. reflexivity.
Qed.

Lemma holds_slice (σ : heap) (a : ndarray) (v : array2d) (r0 r1 c0 c1 : nat) :
  holds σ a v ->
  value σ (nd_slice a r0 r1 c0 c1) = sub_block v r0 r1 c0 c1.
Proof.
  intros ([Hoff Hstr] & Hd & Hb & Hwf).
  unfold value, sub_block, contents, view_indices, nd_slice, buffer, item, height, width.
  cbn [base offset dims strides fst snd].
  rewrite Hb, Hoff, Hstr, Hd. cbn [fst snd default]. f_equal.
  rewrite map_flat_map. apply flat_map_ext. intros i.
  rewrite map_map. apply map_ext. intros j. f_equal. lia.
Qed.

(** Updating the cells 0, 1, ..., n-1 in turn maps the first [n] samples. *)
Lemma update_cells_prefix (f : Q -> Q) (buf : list Q) (n : nat) :
  n <= length buf ->
  update_cells f (seq 0 n) buf = map f (take n buf) ++ drop n buf.
Proof.
  induction n as [|n IH]; intros Hn; [reflexivity|].
  rewrite seq_S. unfold update_cells in *. rewrite fold_left_app. cbn [fold_left].
  rewrite IH by lia. clear IH.
  destruct (lookup_lt_is_Some_2 buf n) as [x Hx]; [lia|].
  assert (Hlen : length (map f (take n buf)) = n)
    by (rewrite length_map, length_take; lia).
  rewrite (take_S_r _ _ _ Hx), (drop_S _ _ _ Hx), map_app. cbn [map].
  rewrite app_nth2 by lia. rewrite Nat.add_0_l, Hlen, Nat.sub_diag. cbn [nth].
  rewrite insert_app_r_alt by lia. rewrite Hlen, Nat.sub_diag. cbn.
  rewrite <- app_assoc. reflexivity.
Qed.

Lemma update_cells_all (f : Q -> Q) (buf : list Q) :
  update_cells f (seq 0 (length buf)) buf = map f buf.
Proof.
  rewrite update_cells_prefix by lia.
  rewrite firstn_all, skipn_all, app_nil_r. reflexivity.
Qed.

Lemma nd_isub_scalar_holds (σ : heap) (a : ndarray) (v : array2d) (m : Q) :
  holds σ a v ->
  nd_isub_scalar a m σ
    = (Returned tt, <[base a := map (fun x => x - m)%Q (data v)]> σ) /\
  holds (<[base a := map (fun x => x - m)%Q (data v)]> σ) a
        {| shape := shape v; data := map (fun x => x - m)%Q (data v) |}.
Proof.
  intros (Hc & Hd & Hb & Hwf). split.
  - unfold nd_isub_scalar, buffer. rewrite Hb. cbn [default].
    rewrite view_indices_contiguous by exact Hc. rewrite Hd.
    fold (height v) (width v) (size v). rewrite <- Hwf, update_cells_all. reflexivity.
  - repeat split; try apply Hc; try assumption.
    + apply lookup_insert_eq.
    + unfold wf. cbn [data]. rewrite length_map. exact Hwf.
Qed.

Lemma bind_returned {S A B} (m : ST S A) (k : A -> ST S B) (s s' : S) (a : A) :
  m s = (Returned a, s') -> (x ← m; k x) s = k a s'.
Proof. intros E. unfold mbind, ST_bind. rewrite E. reflexivity. Qed.

(** Run the first call of a sequence, given what it returns. *)
Ltac step E := rewrite (bind_returned _ _ _ _ _ E).

Lemma new_array_allocates (v : array2d) (σ : heap) :
  wf v -> allocates σ (new_array (shape v) (data v) σ) v.
Proof.
  intros Hwf. destruct (new_array_spec (shape v) (data v) σ Hwf) as (a & E & N & Hh).
  exists a. destruct v. auto.
Qed.

Lemma nd_mean_holds (σ : heap) (a : ndarray) (v : array2d) :
  holds σ a v -> nd_mean a σ = (Returned (Qmean (data v)), σ).
Proof. intros Hh. unfold nd_mean. rewrite (holds_contents σ a v Hh). reflexivity. Qed.

Lemma nd_sub_scalar_allocates (σ : heap) (a : ndarray) (v : array2d) (m : Q) :
  holds σ a v ->
  allocates σ (nd_sub_scalar a m σ)
            {| shape := shape v; data := map (fun x => x - m)%Q (data v) |}.
Proof.
  intros Hh. unfold nd_sub_scalar. rewrite (holds_contents σ a v Hh).
  destruct Hh as (_ & -> & _ & Hwf).
  apply (new_array_allocates {| shape := shape v; data := map _ (data v) |}).
  unfold wf. cbn [data]. rewrite length_map. exact Hwf.
Qed.

Lemma nd_mul_scalar_allocates (σ : heap) (a : ndarray) (v : array2d) (c : Q) :
  holds σ a v ->
  allocates σ (nd_mul_scalar a c σ)
            {| shape := shape v; data := map (fun x => x * c)%Q (data v) |}.
Proof.
  intros Hh. unfold nd_mul_scalar. rewrite (holds_contents σ a v Hh).
  destruct Hh as (_ & -> & _ & Hwf).
  apply (new_array_allocates {| shape := shape v; data := map _ (data v) |}).
  unfold wf. cbn [data]. rewrite length_map. exact Hwf.
Qed.

Lemma np_copy_allocates (σ : heap) (a : ndarray) :
  allocates σ (np_copy a σ) (value σ a).
Proof.
  unfold np_copy. apply (new_array_allocates (value σ a)).
  unfold wf, value, size, height, width. cbn [data shape]. apply length_contents.
Qed.

Lemma nd_add_allocates (σ : heap) (a b : ndarray) (va vb : array2d) :
  holds σ a va -> holds σ b vb -> shape va = shape vb ->
  allocates σ (nd_add a b σ)
            {| shape := shape va; data := zip_with Qplus (data va) (data vb) |}.
Proof.
  intros Ha Hb Hshape. unfold nd_add.
  rewrite (holds_contents σ a va Ha), (holds_contents σ b vb Hb).
  destruct Ha as (_ & Hda & _ & Hwa). destruct Hb as (_ & Hdb & _ & Hwb).
  rewrite bool_decide_eq_true_2 by congruence. rewrite Hda.
  apply (new_array_allocates {| shape := shape va; data := zip_with _ _ _ |}).
  unfold wf, size, height, width in *. cbn [data shape].
  rewrite length_zip_with, Hwa, Hwb, Hshape. lia.
Qed.

Lemma rng_standard_normal_allocates (draw : nat -> Q) (shp : nat * nat) (σ : heap) :
  allocates σ (rng_standard_normal draw shp σ)
            {| shape := shp; data := map draw (seq 0 (fst shp * snd shp)) |}.
Proof.
  apply (new_array_allocates {| shape := shp; data := map draw _ |}).
  unfold wf. cbn [data]. rewrite length_map, length_seq. reflexivity.
Qed.

Lemma subseteq_insert_fresh (σ σ' : heap) (l : nat) (buf : list Q) :
  σ ⊆ σ' -> σ' !! l = None -> σ ⊆ <[l := buf]> σ'.
Proof. intros Hsub Hfresh. etrans; [exact Hsub|]. apply insert_subseteq. exact Hfresh. Qed.

(** ** The sample generator *)

Section SampleFacts.

Variable face : array2d.
Variable draw : nat -> Q.
Hypothesis face_wf : wf face.

(** What [scipy_example] returns, whatever the store it starts from: two
    handles on two different buffers, holding the expected background and
    the expected filter; the buffers that were there before are untouched. *)
Lemma scipy_example_spec (normalize add_noise : bool) (σ0 : heap) :
  exists background_image filter σ,
    scipy_example face draw normalize add_noise σ0
      = (Returned (background_image, filter), σ) /\
    holds σ background_image (returned_background face draw normalize add_noise) /\
    holds σ filter (clean_filter face normalize) /\
    base background_image <> base filter /\
    σ0 ⊆ σ.
Proof.
  unfold scipy_example.
  (* first part: the background before noise and the filter *)
  assert (Hfirst : exists bg filter σ,
    (if normalize then
       face1 ← datasets_face face;
       face2 ← datasets_face face;
       m ← nd_mean face2;
       background_image ← nd_sub_scalar face1 m;
       filter ← np_copy (nd_slice background_image 300 365 670 750);
       fm ← nd_mean filter;
       _ ← nd_isub_scalar filter fm;
       mret (background_image, filter)
     else
       background_image ← datasets_face face;
       filter ← np_copy (nd_slice background_image 300 365 670 750);
       mret (background_image, filter)) σ0 = (Returned (bg, filter), σ) /\
    holds σ bg (clean_background face normalize) /\
    holds σ filter (clean_filter face normalize) /\
    base bg <> base filter /\ σ0 ⊆ σ).
  { destruct normalize.
    - destruct (new_array_allocates face σ0 face_wf) as (f1 & E1 & N1 & H1).
      set (σ1 := <[base f1 := data face]> σ0) in *.
      destruct (new_array_allocates face σ1 face_wf) as (f2 & E2 & N2 & H2).
      set (σ2 := <[base f2 := data face]> σ1) in *.
      assert (H1' : holds σ2 f1 face) by (apply holds_frame; assumption).
      destruct (nd_sub_scalar_allocates σ2 f1 face (Qmean (data face)) H1')
        as (bg & E3 & N3 & H3).
      fold (centered face) in E3, H3.
      set (σ3 := <[base bg := data (centered face)]> σ2) in *.
      destruct (np_copy_allocates σ3 (nd_slice bg 300 365 670 750))
        as (filter & E4 & N4 & H4).
      rewrite (holds_slice σ3 bg (centered face)) in E4, H4 by exact H3.
      set (block := sub_block (centered face) 300 365 670 750) in *.
      set (σ4 := <[base filter := data block]> σ3) in *.
      destruct (nd_isub_scalar_holds σ4 filter block (Qmean (data block)) H4) as (E5 & H5).
      fold (centered block) in E5, H5.
      assert (Hne : base bg <> base filter) by (eapply holds_fresh_ne; eassumption).
      exists bg, filter, (<[base filter := data (centered block)]> σ4).
      split.
      { unfold datasets_face. step E1. step E2.
        step (nd_mean_holds σ2 f2 face H2). step E3. step E4.
        step (nd_mean_holds σ4 filter block H4). step E5. reflexivity. }
      split.
      { apply holds_frame_ne; [|exact Hne]. apply holds_frame; assumption. }
      split; [exact H5|]. split; [exact Hne|].
      subst σ4. rewrite insert_insert_eq.
      apply subseteq_insert_fresh; [|exact N4].
      apply subseteq_insert_fresh; [|exact N3].
      apply subseteq_insert_fresh; [|exact N2].
      apply insert_subseteq; exact N1.
    - destruct (new_array_allocates face σ0 face_wf) as (bg & E1 & N1 & H1).
      set (σ1 := <[base bg := data face]> σ0) in *.
      destruct (np_copy_allocates σ1 (nd_slice bg 300 365 670 750))
        as (filter & E2 & N2 & H2).
      rewrite (holds_slice σ1 bg face) in E2, H2 by exact H1.
      set (block := sub_block face 300 365 670 750) in *.
      exists bg, filter, (<[base filter := data block]> σ1).
      split.
      { unfold datasets_face. step E1. step E2. reflexivity. }
      split; [apply holds_frame; assumption|].
      split; [exact H2|].
      split; [eapply holds_fresh_ne; eassumption|].
      apply subseteq_insert_fresh; [|exact N2].
      apply insert_subseteq; exact N1. }
  destruct Hfirst as (bg & filter & σ & E & Hbg & Hfilter & Hne & Hsub).
  step E. cbv beta iota.
  unfold returned_background. destruct add_noise.
  - (* second part: the noise *)
    set (B := clean_background face normalize) in *.
    pose proof Hbg as (_ & Hd & _ & _).
    destruct (rng_standard_normal_allocates draw (dims bg) σ) as (noise & E1 & N1 & H1).
    rewrite Hd in E1, H1. fold (height B) (width B) in E1, H1.
    set (vn := {| shape := shape B; data := map draw (seq 0 (height B * width B)) |}) in *.
    set (σ1 := <[base noise := data vn]> σ) in *.
    destruct (nd_mul_scalar_allocates σ1 noise vn 50 H1) as (scaled & E2 & N2 & H2).
    set (vs := {| shape := shape vn; data := map (fun x => x * 50)%Q (data vn) |}) in *.
    set (σ2 := <[base scaled := data vs]> σ1) in *.
    assert (Hbg2 : holds σ2 bg B) by (do 2 (apply holds_frame; [|assumption]); exact Hbg).
    assert (Hfilter2 : holds σ2 filter (clean_filter face normalize))
      by (do 2 (apply holds_frame; [|assumption]); exact Hfilter).
    destruct (nd_add_allocates σ2 bg scaled B vs Hbg2 H2 eq_refl)
      as (noisy & E3 & N3 & H3).
    exists noisy, filter, (<[base noisy := zip_with Qplus (data B) (data vs)]> σ2).
    split.
    { rewrite Hd. erewrite bind_returned; [reflexivity|].
      step E1. step E2. exact E3. }
    split; [exact H3|].
    split; [apply holds_frame; assumption|].
    split; [intros Heq; apply (holds_fresh_ne _ _ _ _ Hfilter2 N3); symmetry; exact Heq|].
    apply subseteq_insert_fresh; [|exact N3].
    apply subseteq_insert_fresh; [|exact N2].
    apply subseteq_insert_fresh; [|exact N1].
    exact Hsub.
  - exists bg, filter, σ. repeat split; try assumption; try apply Hbg; try apply Hfilter.
Qed.

End SampleFacts.

Lemma value_insert_ne (σ : heap) (a : ndarray) (l : nat) (buf : list Q) :
  base a <> l -> value (<[l := buf]> σ) a = value σ a.
Proof. intros Hne. unfold value. rewrite contents_frame by exact Hne. reflexivity. Qed.

Lemma holds_weaken (σ σ' : heap) (a : ndarray) (v : array2d) :
  holds σ a v -> σ ⊆ σ' -> holds σ' a v.
Proof.
  intros (Hc & Hd & Hb & Hwf) Hsub. repeat split; try assumption; try apply Hc.
  eapply lookup_weaken; eassumption.
Qed.

(** A write through one handle is invisible through a handle on another
    buffer. *)
Lemma nd_setitem_other (σ σ' : heap) (a b : ndarray) (i j : nat) (v : Q) :
  base b <> base a ->
  nd_setitem a i j v σ = (Returned tt, σ') -> value σ' b = value σ b.
Proof.
  intros Hne. unfold nd_setitem. destruct (bool_decide _); [|discriminate].
  intros [= <-]. apply value_insert_ne. exact Hne.
Qed.

Lemma nd_isub_scalar_other (σ σ' : heap) (a b : ndarray) (m : Q) :
  base b <> base a ->
  nd_isub_scalar a m σ = (Returned tt, σ') -> value σ' b = value σ b.
Proof.
  intros Hne. unfold nd_isub_scalar. intros [= <-]. apply value_insert_ne. exact Hne.
Qed.

Lemma sub_block_item (v : array2d) (r0 r1 c0 c1 i j : nat) :
  i < height (sub_block v r0 r1 c0 c1) -> j < width (sub_block v r0 r1 c0 c1) ->
  item (sub_block v r0 r1 c0 c1) i j
  = item v (r0 `min` height v + i) (c0 `min` width v + j).
Proof.
  intros Hi Hj. unfold item at 1. unfold sub_block in *. unfold height, width in Hi, Hj.
  cbn [shape data fst snd width] in *.
  apply (nth_row_major (fun i j => item v (r0 `min` height v + i) (c0 `min` width v + j)));
    assumption.
Qed.

(** ** Means *)

Lemma Qsum_shift (l : list Q) (c : Q) :
  (Qsum (map (fun x => x - c) l) == Qsum l - inject_Z (Z.of_nat (length l)) * c)%Q.
Proof.
  induction l as [|x l IH].
  - cbn. ring.
  - rewrite map_cons, !Qsum_cons, IH. cbn [length].
    rewrite Nat2Z.inj_succ, <- Z.add_1_r, inject_Z_plus. ring.
Qed.

(** Subtracting the mean of a non-empty list from each of its samples leaves
    a list of mean zero. *)
Lemma Qmean_centered (l : list Q) :
  l <> [] -> (Qmean (map (fun x => x - Qmean l) l) == 0)%Q.
Proof.
  intros Hne. unfold Qmean at 1. rewrite length_map, Qsum_shift.
  unfold Qmean.
  assert (Hn : ~ (inject_Z (Z.of_nat (length l)) == 0)%Q).
  { destruct l as [|x l]; [congruence|]. cbn [length].
    rewrite Nat2Z.inj_succ. unfold Qeq. simpl. lia. }
  field. exact Hn.
Qed.

(** ** What the sample generator guarantees *)

(** C6: whatever the two flags, the filter is the block cut from the
    background as it is before the noise step (with its own mean removed
    when normalizing), so it does not depend on the noise; the noise, fifty
    times each drawn sample, is added to the background only.  Two runs that
    differ in the noise flag and in the samples drawn return the same
    filter. *)
Theorem filter_is_clean (face : array2d) (draw : nat -> Q)
    (normalize add_noise : bool) (σ0 : heap) :
  wf face ->
  exists background_image filter σ,
    scipy_example face draw normalize add_noise σ0
      = (Returned (background_image, filter), σ) /\
    value σ filter
      = (let block := sub_block (clean_background face normalize) 300 365 670 750 in
         if normalize then centered block else block) /\
    (forall i j,
        i < height (sub_block (clean_background face normalize) 300 365 670 750) ->
        j < width (sub_block (clean_background face normalize) 300 365 670 750) ->
        item (sub_block (clean_background face normalize) 300 365 670 750) i j
        = item (clean_background face normalize)
               (300 `min` height face + i) (670 `min` width face + j)) /\
    value σ background_image
      = (if add_noise then with_noise draw (clean_background face normalize)
         else clean_background face normalize) /\
    (forall draw' add_noise' σ0' background_image' filter' σ',
        scipy_example face draw' normalize add_noise' σ0'
          = (Returned (background_image', filter'), σ') ->
        value σ' filter' = value σ filter).
Proof.
  intros Hwf.
  destruct (scipy_example_spec face draw Hwf normalize add_noise σ0)
    as (bg & filter & σ & E & Hbg & Hfilter & _ & _).
  exists bg, filter, σ.
  split; [exact E|].
  split; [apply holds_value; exact Hfilter|].
  split.
  { intros i j Hi Hj. rewrite sub_block_item by assumption.
    destruct normalize; reflexivity. }
  split; [apply holds_value; exact Hbg|].
  intros draw' add_noise' σ0' bg' filter' σ' E'.
  destruct (scipy_example_spec face draw' Hwf normalize add_noise' σ0')
    as (bg2 & filter2 & σ2 & E2 & _ & Hfilter2 & _ & _).
  rewrite E2 in E'. injection E' as <- <- <-.
  rewrite (holds_value _ _ _ Hfilter), (holds_value _ _ _ Hfilter2). reflexivity.
Qed.

Lemma sub_block_nonempty (v : array2d) :
  300 < height v -> 670 < width v -> data (sub_block v 300 365 670 750) <> [].
Proof.
  intros Hh Hw Hnil. apply (f_equal (@length _)) in Hnil.
  unfold sub_block in Hnil. cbn [data] in Hnil.
  rewrite length_row_major, length_seq in Hnil. cbn [length] in Hnil. nia.
Qed.

(** C8: with [normalize=True] the background is the image minus the mean
    of the image, and the filter is the block cut from that background minus
    the mean of the block: two means, each taken over its own array.  In
    exact arithmetic the mean of the background before noise and the mean of
    the filter are both zero. *)
Theorem normalized_means_vanish (face : array2d) (draw : nat -> Q)
    (add_noise : bool) (σ0 : heap) :
  wf face -> 300 < height face -> 670 < width face ->
  exists background_image filter σ,
    scipy_example face draw true add_noise σ0
      = (Returned (background_image, filter), σ) /\
    value σ background_image
      = (if add_noise then with_noise draw (centered face) else centered face) /\
    data (centered face) = map (fun x => x - Qmean (data face))%Q (data face) /\
    (Qmean (data (centered face)) == 0)%Q /\
    value σ filter = centered (sub_block (centered face) 300 365 670 750) /\
    data (value σ filter)
      = map (fun x => x - Qmean (data (sub_block (centered face) 300 365 670 750)))%Q
            (data (sub_block (centered face) 300 365 670 750)) /\
    (Qmean (data (value σ filter)) == 0)%Q.
Proof.
  intros Hwf Hh Hw.
  destruct (scipy_example_spec face draw Hwf true add_noise σ0)
    as (bg & filter & σ & E & Hbg & Hfilter & _ & _).
  exists bg, filter, σ.
  split; [exact E|].
  split; [apply holds_value; exact Hbg|].
  split; [reflexivity|].
  split.
  { apply Qmean_centered. intros Hnil. unfold wf, size in Hwf. rewrite Hnil in Hwf.
    cbn [length] in Hwf. nia. }
  rewrite (holds_value _ _ _ Hfilter).
  split; [reflexivity|]. split; [reflexivity|].
  apply Qmean_centered. apply (sub_block_nonempty (centered face)); assumption.
Qed.

(** C9: with [normalize=True] and [add_noise=False] a second call, made in
    the store the first call left and with another random source, returns a
    background and a filter equal, sample for sample, to those of the first
    call; the arrays of the first call are still intact. *)
Theorem no_noise_path_deterministic (face : array2d) (draw1 draw2 : nat -> Q)
    (σ0 : heap) :
  wf face ->
  exists background1 filter1 σ1 background2 filter2 σ2,
    scipy_example face draw1 true false σ0 = (Returned (background1, filter1), σ1) /\
    scipy_example face draw2 true false σ1 = (Returned (background2, filter2), σ2) /\
    value σ2 background2 = value σ1 background1 /\
    value σ2 filter2 = value σ1 filter1 /\
    value σ2 background1 = value σ1 background1 /\
    value σ2 filter1 = value σ1 filter1.
Proof.
  intros Hwf.
  destruct (scipy_example_spec face draw1 Hwf true false σ0)
    as (bg1 & f1 & σ1 & E1 & Hbg1 & Hf1 & _ & _).
  destruct (scipy_example_spec face draw2 Hwf true false σ1)
    as (bg2 & f2 & σ2 & E2 & Hbg2 & Hf2 & _ & Hsub).
  exists bg1, f1, σ1, bg2, f2, σ2.
  split; [exact E1|]. split; [exact E2|].
  rewrite (holds_value _ _ _ Hbg1), (holds_value _ _ _ Hf1).
  rewrite (holds_value _ _ _ Hbg2), (holds_value _ _ _ Hf2).
  rewrite (holds_value _ _ _ (holds_weaken _ _ _ _ Hbg1 Hsub)).
  rewrite (holds_value _ _ _ (holds_weaken _ _ _ _ Hf1 Hsub)).
  repeat split; reflexivity.
Qed.

(** C10: the returned filter lives in a buffer of its own.  The in-place
    subtraction of its mean has not reached the background, whose block
    still holds the samples the filter was copied from; and a later write
    or in-place update through either handle leaves the other array as it
    was. *)
Theorem filter_is_independent_copy (face : array2d) (draw : nat -> Q)
    (normalize add_noise : bool) (σ0 : heap) :
  wf face ->
  exists background_image filter σ,
    scipy_example face draw normalize add_noise σ0
      = (Returned (background_image, filter), σ) /\
    base background_image <> base filter /\
    value σ background_image = returned_background face draw normalize add_noise /\
    value σ filter = clean_filter face normalize /\
    (forall i j v σ',
        nd_setitem filter i j v σ = (Returned tt, σ') ->
        value σ' background_image = value σ background_image) /\
    (forall i j v σ',
        nd_setitem background_image i j v σ = (Returned tt, σ') ->
        value σ' filter = value σ filter) /\
    (forall m σ',
        nd_isub_scalar filter m σ = (Returned tt, σ') ->
        value σ' background_image = value σ background_image) /\
    (forall m σ',
        nd_isub_scalar background_image m σ = (Returned tt, σ') ->
        value σ' filter = value σ filter).
Proof.
  intros Hwf.
  destruct (scipy_example_spec face draw Hwf normalize add_noise σ0)
    as (bg & filter & σ & E & Hbg & Hfilter & Hne & _).
  exists bg, filter, σ.
  split; [exact E|]. split; [exact Hne|].
  split; [apply holds_value; exact Hbg|].
  split; [apply holds_value; exact Hfilter|].
  split; [intros i j v σ'; apply nd_setitem_other; exact Hne|].
  split; [intros i j v σ'; apply nd_setitem_other; congruence|].
  split; [intros m σ'; apply nd_isub_scalar_other; exact Hne|].
  intros m σ'; apply nd_isub_scalar_other; congruence.
Qed.

(** ** The theorems at sample inputs *)

Lemma rotational_cc_return_shape_witness :
  0 < height background_3x4 /\ 0 < width background_3x4 /\
  (0 < 100 < 360)%Z /\ sweep_count 100 <= 4 /\
  let surfaces := map (surface_at rotate_sample background_3x4 filter_2x2)
                      (sweep_angles 100) in
  let locs := map (fun a => peak (surface_at rotate_sample background_3x4 filter_2x2 a))
                  (sweep_angles 100) in
  exists mean max,
    np_mean_axis0 surfaces = Returned mean /\
    np_max_axis0 surfaces = Returned max /\
    run (rotational_cc rotate_sample 4 background_3x4 filter_2x2 100 true true)
      = (Returned (Both mean max), sweep_events (sweep_angles 100)) /\
    shape mean = shape background_3x4 /\
    shape max = shape background_3x4 /\
    (forall i, i < size background_3x4 ->
       nth i (data mean) 0%Q = Qmean (column surfaces i) /\
       nth i (data max) 0%Q = Qmaximum (column surfaces i) /\
       In (nth i (data max) 0%Q) (column surfaces i) /\
       Forall (fun v => (v <= nth i (data max) 0)%Q) (column surfaces i)).
Proof.
  assert (H1 : 0 < height background_3x4) by (vm_compute; lia).
  assert (H2 : 0 < width background_3x4) by (vm_compute; lia).
  assert (H3 : (0 < 100 < 360)%Z) by lia.
  assert (H4 : sweep_count 100 <= 4) by (vm_compute; lia).
  exact (conj H1 (conj H2 (conj H3 (conj H4
    (rotational_cc_return_shape rotate_sample background_3x4 filter_2x2 100 true true 4
       H1 H2 H3 H4))))).
Defined.

Lemma sweep_iteration_count_witness :
  0 < height background_3x4 /\ 0 < width background_3x4 /\
  (0 < 7 < 360)%Z /\ sweep_count 7 <= 52 /\
  exists st,
    run (sweep_loop rotate_sample 52 background_3x4 filter_2x2 7 sweep_init)
      = (Returned st, sweep_events (sweep_angles 7)) /\
    (forall return_average return_max, exists result,
        run (rotational_cc rotate_sample 52 background_3x4 filter_2x2 7
                           return_average return_max)
          = (Returned result, sweep_events (sweep_angles 7))) /\
    (forall less, less < sweep_count 7 ->
        fst (run (sweep_loop rotate_sample less background_3x4 filter_2x2 7 sweep_init))
          = OutOfFuel) /\
    (360 <= filter_angle st)%Z /\
    length (all_correlations st) = sweep_count 7 /\
    length (max_locs st) = sweep_count 7 /\
    length (sweep_angles 7) = sweep_count 7 /\
    ((Z.of_nat (sweep_count 7) - 1) * 7 < 360 <= Z.of_nat (sweep_count 7) * 7)%Z /\
    (forall k, k < sweep_count 7 -> nth k (sweep_angles 7) 0%Z = (Z.of_nat k * 7)%Z) /\
    head (sweep_angles 7) = Some 0%Z /\
    last (sweep_angles 7) = Some ((Z.of_nat (sweep_count 7) - 1) * 7)%Z /\
    Forall (fun a => (0 <= a < 360)%Z) (sweep_angles 7) /\
    sweep_count 10 = 36 /\
    sweep_count 7 = 52 /\
    last (sweep_angles 7) = Some 357%Z.
Proof.
  assert (H1 : 0 < height background_3x4) by (vm_compute; lia).
  assert (H2 : 0 < width background_3x4) by (vm_compute; lia).
  assert (H3 : (0 < 7 < 360)%Z) by lia.
  assert (H4 : sweep_count 7 <= 52) by (vm_compute; lia).
  exact (conj H1 (conj H2 (conj H3 (conj H4
    (sweep_iteration_count rotate_sample background_3x4 filter_2x2 7 52 H1 H2 H3 H4))))).
Defined.

Lemma rotational_cc_nonpositive_step_witness :
  0 < height background_3x4 /\ 0 < width background_3x4 /\ (0 <= 0)%Z /\
  run (rotational_cc rotate_sample 1000 background_3x4 filter_2x2 0 false false)
    = (OutOfFuel, sweep_events (angles_from 0 0 1000)) /\
  length (sweep_events (angles_from 0 0 1000)) = 2 * 1000.
Proof.
  assert (H1 : 0 < height background_3x4) by (vm_compute; lia).
  assert (H2 : 0 < width background_3x4) by (vm_compute; lia).
  assert (H3 : (0 <= 0)%Z) by lia.
  exact (conj H1 (conj H2 (conj H3
    (rotational_cc_nonpositive_step rotate_sample background_3x4 filter_2x2 0 false false
       1000 H1 H2 H3)))).
Defined.

Lemma cross_correlation_max_loc_witness :
  0 < height background_3x4 /\ 0 < width background_3x4 /\
  exists corr x y,
    run (cross_correlation background_3x4 filter_2x2 true)
      = (Returned (SurfaceWithLoc corr (x, y)), [EvCorrelate2d]) /\
    corr = correlate2d background_3x4 filter_2x2 /\
    x < width background_3x4 /\
    y < height background_3x4 /\
    first_max (data corr) (y * width corr + x) /\
    (forall i j, i < height corr -> j < width corr ->
                 (item corr i j <= item corr y x)%Q).
Proof.
  assert (H1 : 0 < height background_3x4) by (vm_compute; lia).
  assert (H2 : 0 < width background_3x4) by (vm_compute; lia).
  exact (conj H1 (conj H2
    (cross_correlation_max_loc background_3x4 filter_2x2 H1 H2))).
Defined.

Lemma cross_correlation_same_shape_witness :
  height filter_2x2 <= height background_3x4 /\
  width filter_2x2 <= width background_3x4 /\
  run (cross_correlation background_3x4 filter_2x2 false)
    = (Returned (Surface (correlate2d background_3x4 filter_2x2)), [EvCorrelate2d]) /\
  shape (correlate2d background_3x4 filter_2x2) = shape background_3x4 /\
  wf (correlate2d background_3x4 filter_2x2) /\
  (forall b tr r tr',
      cross_correlation background_3x4 filter_2x2 b tr = (Returned r, tr') ->
      shape (surface_of r) = shape background_3x4) /\
  (forall fuel angle surfaces locs tr,
      run (rotational_cc rotate_sample fuel background_3x4 filter_2x2 angle false false)
        = (Returned (FullSweep surfaces locs), tr) ->
      Forall (fun s => shape s = shape background_3x4) surfaces).
Proof.
  assert (H1 : height filter_2x2 <= height background_3x4) by (vm_compute; lia).
  assert (H2 : width filter_2x2 <= width background_3x4) by (vm_compute; lia).
  exact (conj H1 (conj H2
    (cross_correlation_same_shape rotate_sample background_3x4 filter_2x2 H1 H2))).
Defined.

Lemma face_sample_wf : wf face_sample.
Proof.
  unfold wf, size, height, width, face_sample. cbn [data shape fst snd].
  rewrite length_map, length_seq. reflexivity.
Defined.

Lemma rotate_sample_close (j k : nat) :
  j < height filter_2x2 -> k < width filter_2x2 ->
  (Qabs (item (rotate_sample filter_2x2 0) j k - item filter_2x2 j k) <= 1 # 1000)%Q.
Proof.
  intros Hj Hk.
  assert (Hj' : j < 2) by exact Hj. assert (Hk' : k < 2) by exact Hk.
  destruct j as [|[|j]]; [| |lia]; (destruct k as [|[|k]]; [| |lia]);
    vm_compute; discriminate.
Defined.

Lemma first_surface_matches_direct_call_witness :
  0 < height background_3x4 /\ 0 < width background_3x4 /\
  shape (rotate_sample filter_2x2 0) = shape filter_2x2 /\
  (forall j k, j < height filter_2x2 -> k < width filter_2x2 ->
     (Qabs (item (rotate_sample filter_2x2 0) j k - item filter_2x2 j k) <= 1 # 1000)%Q) /\
  exists st first direct,
    run (loop_body rotate_sample background_3x4 filter_2x2 10 sweep_init)
      = (Returned st, [EvRotate 0; EvCorrelate2d]) /\
    all_correlations st = [first] /\
    run (cross_correlation background_3x4 filter_2x2 false)
      = (Returned (Surface direct), [EvCorrelate2d]) /\
    shape first = shape direct /\
    (forall m n, m < height background_3x4 -> n < width background_3x4 ->
       (Qabs (item first m n - item direct m n)
        <= (1 # 1000) * window_mass background_3x4 filter_2x2 m n)%Q) /\
    (rotate_sample filter_2x2 0 = filter_2x2 -> first = direct) /\
    (forall fuel surfaces locs tr,
       run (rotational_cc rotate_sample fuel background_3x4 filter_2x2 10 false false)
         = (Returned (FullSweep surfaces locs), tr) ->
       head surfaces = Some first).
Proof.
  assert (H1 : 0 < height background_3x4) by (vm_compute; lia).
  assert (H2 : 0 < width background_3x4) by (vm_compute; lia).
  assert (H3 : shape (rotate_sample filter_2x2 0) = shape filter_2x2) by reflexivity.
  exact (conj H1 (conj H2 (conj H3 (conj rotate_sample_close
    (first_surface_matches_direct_call rotate_sample background_3x4 filter_2x2 10
       (1 # 1000) H1 H2 H3 rotate_sample_close))))).
Defined.

Lemma filter_is_clean_witness :
  wf face_sample /\
  exists background_image filter σ,
    scipy_example face_sample draw_sample true true ∅
      = (Returned (background_image, filter), σ) /\
    value σ filter
      = (let block := sub_block (clean_background face_sample true) 300 365 670 750 in
         if true then centered block else block) /\
    (forall i j,
        i < height (sub_block (clean_background face_sample true) 300 365 670 750) ->
        j < width (sub_block (clean_background face_sample true) 300 365 670 750) ->
        item (sub_block (clean_background face_sample true) 300 365 670 750) i j
        = item (clean_background face_sample true)
               (300 `min` height face_sample + i) (670 `min` width face_sample + j)) /\
    value σ background_image
      = (if true then with_noise draw_sample (clean_background face_sample true)
         else clean_background face_sample true) /\
    (forall draw' add_noise' σ0' background_image' filter' σ',
        scipy_example face_sample draw' true add_noise' σ0'
          = (Returned (background_image', filter'), σ') ->
        value σ' filter' = value σ filter).
Proof.
  exact (conj face_sample_wf
    (filter_is_clean face_sample draw_sample true true ∅ face_sample_wf)).
Defined.

Lemma normalized_means_vanish_witness :
  wf face_sample /\ 300 < height face_sample /\ 670 < width face_sample /\
  exists background_image filter σ,
    scipy_example face_sample draw_sample true true ∅
      = (Returned (background_image, filter), σ) /\
    value σ background_image
      = (if true then with_noise draw_sample (centered face_sample)
         else centered face_sample) /\
    data (centered face_sample)
      = map (fun x => x - Qmean (data face_sample))%Q (data face_sample) /\
    (Qmean (data (centered face_sample)) == 0)%Q /\
    value σ filter = centered (sub_block (centered face_sample) 300 365 670 750) /\
    data (value σ filter)
      = map (fun x => x - Qmean (data (sub_block (centered face_sample) 300 365 670 750)))%Q
            (data (sub_block (centered face_sample) 300 365 670 750)) /\
    (Qmean (data (value σ filter)) == 0)%Q.
Proof.
  assert (H2 : 300 < height face_sample) by (unfold height, face_sample; cbn [shape fst]; lia).
  assert (H3 : 670 < width face_sample) by (unfold width, face_sample; cbn [shape snd]; lia).
  exact (conj face_sample_wf (conj H2 (conj H3
    (normalized_means_vanish face_sample draw_sample true ∅ face_sample_wf H2 H3)))).
Defined.

Lemma no_noise_path_deterministic_witness :
  wf face_sample /\
  exists background1 filter1 σ1 background2 filter2 σ2,
    scipy_example face_sample draw_sample true false ∅
      = (Returned (background1, filter1), σ1) /\
    scipy_example face_sample (fun n => (draw_sample n + 1)%Q) true false σ1
      = (Returned (background2, filter2), σ2) /\
    value σ2 background2 = value σ1 background1 /\
    value σ2 filter2 = value σ1 filter1 /\
    value σ2 background1 = value σ1 background1 /\
    value σ2 filter1 = value σ1 filter1.
Proof.
  exact (conj face_sample_wf
    (no_noise_path_deterministic face_sample draw_sample
       (fun n => (draw_sample n + 1)%Q) ∅ face_sample_wf)).
Defined.

Lemma filter_is_independent_copy_witness :
  wf face_sample /\
  exists background_image filter σ,
    scipy_example face_sample draw_sample true true ∅
      = (Returned (background_image, filter), σ) /\
    base background_image <> base filter /\
    value σ background_image = returned_background face_sample draw_sample true true /\
    value σ filter = clean_filter face_sample true /\
    (forall i j v σ',
        nd_setitem filter i j v σ = (Returned tt, σ') ->
        value σ' background_image = value σ background_image) /\
    (forall i j v σ',
        nd_setitem background_image i j v σ = (Returned tt, σ') ->
        value σ' filter = value σ filter) /\
    (forall m σ',
        nd_isub_scalar filter m σ = (Returned tt, σ') ->
        value σ' background_image = value σ background_image) /\
    (forall m σ',
        nd_isub_scalar background_image m σ = (Returned tt, σ') ->
        value σ' filter = value σ filter).
Proof.
  exact (conj face_sample_wf
    (filter_is_independent_copy face_sample draw_sample true true ∅ face_sample_wf)).
Defined.

(** ** Small runs *)

(** The maximum 9 of the sample background occurs at (row 1, column 1) and at
    (row 2, column 0); the reported pair is (x, y) = (1, 1), the first in
    row-major order, column before row. *)
Example first_maximum_is_reported :
  run (cross_correlation background_3x4 (of_ints 1 1 [1]%Z) true)
  = (Returned (SurfaceWithLoc (correlate2d background_3x4 (of_ints 1 1 [1]%Z)) (1, 1)),
     [EvCorrelate2d]).
Proof. vm_compute. reflexivity. Qed.

Example sweep_of_step_100 :
  snd (run (rotational_cc rotate_sample 4 background_3x4 filter_2x2 100 false false))
  = [EvRotate 0; EvCorrelate2d; EvRotate 100; EvCorrelate2d;
     EvRotate 200; EvCorrelate2d; EvRotate 300; EvCorrelate2d].
Proof. vm_compute. reflexivity. Qed.

Example sweep_of_step_360 :
  run (rotational_cc rotate_sample 4 background_3x4 filter_2x2 360 false false)
  = (Raised AssertionError, []).
Proof. reflexivity. Qed.

(** An in-place update through a slice reaches the array it was cut from;
    through a copy of the slice it does not. *)
Example update_through_view :
  data (value (snd (nd_isub_scalar first_row 1 store_2x2)) array_2x2)
  = [1 - 1; 2 - 1; 3; 4]%Q.
Proof. vm_compute. reflexivity. Qed.

Example update_through_copy :
  match np_copy first_row store_2x2 with
  | (Returned c, σ) =>
      data (value (snd (nd_isub_scalar c 1 σ)) array_2x2) = [1; 2; 3; 4]%Q /\
      data (value (snd (nd_isub_scalar c 1 σ)) c) = [1 - 1; 2 - 1]%Q
  | _ => False
  end.
Proof. vm_compute. split; reflexivity. Qed.

(** * Further properties of the code *)

(** ** Empty backgrounds *)

Lemma correlate2d_empty (background_image filter : array2d) :
  size background_image = 0 -> data (correlate2d background_image filter) = [].
Proof.
  intros Hsz. apply length_zero_iff_nil.
  rewrite (correlate2d_wf background_image filter). exact Hsz.
Qed.

Lemma cross_correlation_empty_raises (background_image filter : array2d)
    (tr : list event) :
  size background_image = 0 ->
  cross_correlation background_image filter true tr
    = (Raised ValueError, tr ++ [EvCorrelate2d]).
Proof.
  intros Hsz. pose proof (correlate2d_empty background_image filter Hsz) as Hnil.
  unfold cross_correlation, mbind, ST_bind, emit, lift, np_argmax.
  rewrite Hnil. reflexivity.
Qed.

(** X1: on a background with no rows or no columns a call that asks for
    the peak raises [ValueError], after the one correlation: the surface is
    empty and has no maximum to locate. *)
Theorem cross_correlation_empty_background (background_image filter : array2d) :
  size background_image = 0 ->
  run (cross_correlation background_image filter true)
    = (Raised ValueError, [EvCorrelate2d]).
Proof.
  intros Hsz. unfold run.
  rewrite cross_correlation_empty_raises by exact Hsz. reflexivity.
Qed.

Section EmptySweep.

Variable rotate : array2d -> Z -> array2d.

(** X2: on such a background a sweep with a step below 360 fails in its
    first pass, whatever the flags: one rotation and one correlation are
    made, then [ValueError] comes out of the peak search. *)
Theorem rotational_cc_empty_background (background_image filter : array2d)
    (angle : Z) (return_average return_max : bool) (fuel : nat) :
  size background_image = 0 -> (angle < 360)%Z ->
  run (rotational_cc rotate (S fuel) background_image filter angle
                     return_average return_max)
    = (Raised ValueError, [EvRotate 0; EvCorrelate2d]).
Proof.
  intros Hsz Hlt. unfold run, rotational_cc. apply Z.ltb_lt in Hlt. rewrite Hlt.
  assert (Hbody : loop_body rotate background_image filter angle sweep_init []
                  = (Raised ValueError, [EvRotate 0; EvCorrelate2d])).
  { unfold loop_body, mbind, ST_bind, emit.
    rewrite cross_correlation_empty_raises by exact Hsz. reflexivity. }
  unfold mbind at 1, ST_bind at 1. cbn [sweep_loop].
  replace (filter_angle sweep_init <? 360)%Z with true by reflexivity.
  unfold mbind at 1, ST_bind at 1. rewrite Hbody. reflexivity.
Qed.

End EmptySweep.

(** ** The two lists of a full sweep *)

Lemma cross_correlation_returns_peak (background_image filter : array2d)
    (tr tr' : list event) (r : correlation_result) :
  cross_correlation background_image filter true tr = (Returned r, tr') ->
  0 < size background_image /\
  r = SurfaceWithLoc (correlate2d background_image filter)
                     (peak (correlate2d background_image filter)).
Proof.
  destruct (decide (size background_image = 0)) as [Hz|Hnz].
  - rewrite cross_correlation_empty_raises by exact Hz. discriminate.
  - assert (Hsz : 0 < size background_image) by lia.
    rewrite cross_correlation_with_loc by exact Hsz.
    intros [= <- _]. split; [exact Hsz | reflexivity].
Qed.

Section SweepLists.

Variable rotate : array2d -> Z -> array2d.

(** Invariant of the loop: the two lists grow together, and each location
    is the peak of the surface at the same position. *)
Lemma sweep_loop_peaks (background_image filter : array2d) (angle : Z) (fuel : nat) :
  forall (st st' : sweep_state) (tr tr' : list event),
  Forall2 (fun s loc => 0 < size background_image /\
                        shape s = shape background_image /\ wf s /\ loc = peak s)
          (all_correlations st) (max_locs st) ->
  sweep_loop rotate fuel background_image filter angle st tr = (Returned st', tr') ->
  Forall2 (fun s loc => 0 < size background_image /\
                        shape s = shape background_image /\ wf s /\ loc = peak s)
          (all_correlations st') (max_locs st').
Proof.
  induction fuel as [|fuel IH]; intros st st' tr tr' Hinv; simpl.
  - destruct (filter_angle st <? 360)%Z; [discriminate|].
    intros [= <- _]. exact Hinv.
  - destruct (filter_angle st <? 360)%Z; [|intros [= <- _]; exact Hinv].
    unfold mbind at 1, ST_bind at 1.
    destruct (loop_body _ _ _ _ _ _) as [[st1| |] tr1] eqn:E; try discriminate.
    apply IH. clear IH. revert E.
    unfold loop_body, mbind, ST_bind, emit.
    destruct (cross_correlation _ _ _ _) as [[r| |] tr2] eqn:Ecc; try discriminate.
    apply cross_correlation_returns_peak in Ecc as [Hsz ->].
    intros [= <- _]. cbn [all_correlations max_locs].
    apply Forall2_app; [exact Hinv|].
    constructor; [|constructor].
    split; [exact Hsz|]. split; [reflexivity|]. split; [apply correlate2d_wf | reflexivity].
Qed.

(** X3: when a sweep returns its two lists, they have one length, and the
    location at each position is the peak of the surface at that position:
    column below the width and row below the height of the background, at
    the first maximum of that surface. *)
Theorem sweep_peaks_match_surfaces (background_image filter : array2d)
    (angle : Z) (fuel : nat) (surfaces : list array2d) (locs : list (nat * nat))
    (tr : list event) :
  run (rotational_cc rotate fuel background_image filter angle false false)
    = (Returned (FullSweep surfaces locs), tr) ->
  length locs = length surfaces /\
  forall k s loc, surfaces !! k = Some s -> locs !! k = Some loc ->
    loc = peak s /\
    fst loc < width background_image /\
    snd loc < height background_image /\
    first_max (data s) (snd loc * width s + fst loc).
Proof.
  unfold run, rotational_cc.
  destruct (angle <? 360)%Z; [|discriminate].
  unfold mbind, ST_bind.
  destruct (sweep_loop _ _ _ _ _ _ _) as [[st| |] tr1] eqn:E; try discriminate.
  simpl. intros [= <- <- _].
  assert (Hinv : Forall2 (fun s loc => 0 < size background_image /\
                            shape s = shape background_image /\ wf s /\ loc = peak s)
                         (all_correlations st) (max_locs st)).
  { eapply sweep_loop_peaks; [|exact E]. constructor. }
  split; [symmetry; eapply Forall2_length; exact Hinv|].
  intros k s loc Hs Hloc.
  destruct (Forall2_lookup_lr _ _ _ _ _ _ Hinv Hs Hloc) as (Hsz & Hshape & Hwf & ->).
  assert (Hsz' : 0 < size s) by (unfold size, height, width in *; rewrite Hshape; exact Hsz).
  destruct (peak_spec s Hwf Hsz') as (Hx & Hy & Hfm).
  unfold height, width in *. rewrite Hshape in Hx, Hy.
  split; [reflexivity|]. split; [exact Hx|]. split; [exact Hy | exact Hfm].
Qed.

End SweepLists.

(** ** Mean against maximum *)

Lemma Qsum_le_bound (l : list Q) (M : Q) :
  Forall (fun v => (v <= M)%Q) l ->
  (Qsum l <= M * inject_Z (Z.of_nat (length l)))%Q.
Proof.
  induction 1 as [|x l Hx Hl IH].
  - cbn. assert (E : (M * inject_Z 0 == 0)%Q) by ring. rewrite E. apply Qle_refl.
  - rewrite Qsum_cons. cbn [length].
    rewrite Nat2Z.inj_succ, <- Z.add_1_r, inject_Z_plus.
    assert (E : (M * (inject_Z (Z.of_nat (length l)) + inject_Z 1)
                 == M + M * inject_Z (Z.of_nat (length l)))%Q) by ring.
    rewrite E. apply Qplus_le_compat; assumption.
Qed.

(** The mean of a non-empty list does not exceed its maximum. *)
Lemma Qmean_le_Qmaximum (l : list Q) : l <> [] -> (Qmean l <= Qmaximum l)%Q.
Proof.
  intros Hne. destruct (Qmaximum_spec l Hne) as [_ Hall].
  unfold Qmean. apply Qle_shift_div_r.
  - destruct l as [|x l]; [congruence|]. cbn [length].
    rewrite Nat2Z.inj_succ. unfold Qlt. simpl. lia.
  - apply Qsum_le_bound. exact Hall.
Qed.

Lemma reduce_axis0_mean_le_max (l : list array2d) (mean max : array2d) :
  np_mean_axis0 l = Returned mean -> np_max_axis0 l = Returned max ->
  shape mean = shape max /\
  length (data mean) = size mean /\
  forall i, i < size mean -> (nth i (data mean) 0 <= nth i (data max) 0)%Q.
Proof.
  unfold np_mean_axis0, np_max_axis0, reduce_axis0.
  destruct l as [|a t]; [discriminate|].
  destruct (forallb _ t); [|discriminate].
  intros [= <-] [= <-]. cbn [shape data].
  split; [reflexivity|].
  split; [rewrite length_map, length_seq; reflexivity|].
  intros i Hi. change (size {| shape := shape a; data := _ |}) with (size a) in Hi.
  rewrite !nth_map_seq by exact Hi.
  apply Qmean_le_Qmaximum. discriminate.
Qed.

Lemma length_sweep_events (angles : list Z) :
  length (sweep_events angles) = 2 * length angles.
Proof.
  unfold sweep_events. induction angles as [|a l IH]; simpl; [reflexivity|].
  rewrite IH. lia.
Qed.

Section MeanAndMax.

Variable rotate : array2d -> Z -> array2d.

(** X4: when both aggregates are asked for and the sweep returns them, the
    two surfaces have one shape and, in exact arithmetic, the mean surface
    does not exceed the maximum surface in any cell.  (A binary64 mean of
    equal samples can exceed them by rounding.) *)
Theorem mean_surface_below_max_surface (background_image filter : array2d)
    (angle : Z) (fuel : nat) (mean max : array2d) (tr : list event) :
  run (rotational_cc rotate fuel background_image filter angle true true)
    = (Returned (Both mean max), tr) ->
  shape mean = shape max /\
  length (data mean) = size mean /\
  forall i, i < size mean -> (nth i (data mean) 0 <= nth i (data max) 0)%Q.
Proof.
  unfold run, rotational_cc.
  destruct (angle <? 360)%Z; [|discriminate].
  unfold mbind at 1, ST_bind at 1.
  destruct (sweep_loop _ _ _ _ _ _ _) as [[st| |] tr1]; try discriminate.
  cbn [andb]. unfold mbind, ST_bind, lift.
  destruct (np_mean_axis0 (all_correlations st)) as [m| |] eqn:Em; try discriminate.
  destruct (np_max_axis0 (all_correlations st)) as [x| |] eqn:Ex; try discriminate.
  intros [= <- <- _]. eapply reduce_axis0_mean_le_max; eassumption.
Qed.

(** X5: a step in (0, 360) gives at least two and at most 360 passes, so
    fuel for 360 passes is always enough: the sweep returns after between
    two and 360 rotations and as many correlations. *)
Theorem sweep_work_is_bounded (background_image filter : array2d)
    (angle : Z) (return_average return_max : bool) :
  0 < height background_image -> 0 < width background_image ->
  (0 < angle < 360)%Z ->
  2 <= sweep_count angle <= 360 /\
  exists result,
    run (rotational_cc rotate 360 background_image filter angle
                       return_average return_max)
      = (Returned result, sweep_events (sweep_angles angle)) /\
    length (sweep_events (sweep_angles angle)) = 2 * sweep_count angle.
Proof.
  intros Hh Hw [Hpos Hlt].
  assert (Hsz : 0 < size background_image) by (unfold size; lia).
  pose proof (sweep_count_ceiling angle Hpos) as Hceil.
  assert (Hcount : 2 <= sweep_count angle <= 360) by nia.
  split; [exact Hcount|].
  eexists. split.
  - apply (rotational_cc_valid_run rotate background_image filter angle
             return_average return_max 360 Hsz (conj Hpos Hlt)). lia.
  - unfold sweep_angles. rewrite length_sweep_events, length_angles_from. reflexivity.
Qed.

End MeanAndMax.

(** ** Filters the rotation leaves alone *)

Lemma map_const_repeat {A B} (c : B) (l : list A) :
  map (fun _ => c) l = repeat c (length l).
Proof. induction l as [|x l IH]; simpl; [reflexivity|]. rewrite IH. reflexivity. Qed.

Lemma column_repeat (a : array2d) (n i : nat) :
  column (repeat a n) i = repeat (nth i (data a) 0%Q) n.
Proof.
  unfold column. induction n as [|n IH]; simpl; [reflexivity|]. rewrite IH. reflexivity.
Qed.

Lemma Qltb_irrefl (x : Q) : Qltb x x = false.
Proof. apply Qltb_ge. apply Qle_refl. Qed.

Lemma Qmaximum_repeat (x : Q) (n : nat) : Qmaximum (repeat x (S n)) = x.
Proof.
  cbn [repeat Qmaximum]. induction n as [|n IH]; simpl; [reflexivity|].
  rewrite Qltb_irrefl. exact IH.
Qed.

Lemma Qsum_repeat (x : Q) (n : nat) :
  (Qsum (repeat x n) == inject_Z (Z.of_nat n) * x)%Q.
Proof.
  induction n as [|n IH].
  - cbn. ring.
  - cbn [repeat]. rewrite Qsum_cons, IH.
    rewrite Nat2Z.inj_succ, <- Z.add_1_r, inject_Z_plus. ring.
Qed.

Lemma Qmean_repeat (x : Q) (n : nat) : (Qmean (repeat x (S n)) == x)%Q.
Proof.
  unfold Qmean. rewrite Qsum_repeat, repeat_length.
  assert (Hn : ~ (inject_Z (Z.of_nat (S n)) == 0)%Q).
  { rewrite Nat2Z.inj_succ. unfold Qeq. simpl. lia. }
  field. exact Hn.
Qed.

Section SymmetricFilter.

Variable rotate : array2d -> Z -> array2d.

(** X6: if the rotation returns the filter itself at every tested angle, the
    sweep collapses to one correlation: the full sweep is that surface and
    its peak, repeated once per angle; the maximum surface is that surface;
    and the mean surface has its samples. *)
Theorem sweep_of_rotation_symmetric_filter (background_image filter : array2d)
    (angle : Z) (fuel : nat) :
  0 < height background_image -> 0 < width background_image ->
  (0 < angle < 360)%Z ->
  sweep_count angle <= fuel ->
  (forall a, In a (sweep_angles angle) -> rotate filter a = filter) ->
  let corr := correlate2d background_image filter in
  let n := sweep_count angle in
  run (rotational_cc rotate fuel background_image filter angle false false)
    = (Returned (FullSweep (repeat corr n) (repeat (peak corr) n)),
       sweep_events (sweep_angles angle)) /\
  run (rotational_cc rotate fuel background_image filter angle false true)
    = (Returned (Maximum corr), sweep_events (sweep_angles angle)) /\
  exists mean,
    run (rotational_cc rotate fuel background_image filter angle true false)
      = (Returned (Average mean), sweep_events (sweep_angles angle)) /\
    same_samples mean corr.
Proof.
  intros Hh Hw Hangle Hfuel Hsym corr n.
  assert (Hsz : 0 < size background_image) by (unfold size; lia).
  assert (Hn : 0 < n) by (apply sweep_count_pos; lia).
  assert (Hsurf : map (surface_at rotate background_image filter) (sweep_angles angle)
                  = repeat corr n).
  { rewrite (map_ext_in _ (fun _ => corr)).
    - rewrite map_const_repeat. unfold sweep_angles.
      rewrite length_angles_from. reflexivity.
    - intros a Ha. unfold surface_at. rewrite (Hsym a Ha). reflexivity. }
  assert (Hlocs : map (fun a => peak (surface_at rotate background_image filter a))
                      (sweep_angles angle)
                  = repeat (peak corr) n).
  { rewrite (map_ext_in _ (fun _ => peak corr)).
    - rewrite map_const_repeat. unfold sweep_angles.
      rewrite length_angles_from. reflexivity.
    - intros a Ha. unfold surface_at. rewrite (Hsym a Ha). reflexivity. }
  assert (Hlen : length (data corr) = size background_image)
    by apply (correlate2d_wf background_image filter).
  pose proof (rotational_cc_valid_run rotate background_image filter angle
                false false fuel Hsz Hangle Hfuel) as (_ & _ & Hfull).
  pose proof (rotational_cc_valid_run rotate background_image filter angle
                false true fuel Hsz Hangle Hfuel) as (_ & _ & Hmax).
  pose proof (rotational_cc_valid_run rotate background_image filter angle
                true false fuel Hsz Hangle Hfuel) as (_ & _ & Hmean).
  cbv zeta in Hfull, Hmax, Hmean. rewrite Hsurf in Hfull, Hmax, Hmean.
  rewrite Hlocs in Hfull.
  split; [exact Hfull|]. split.
  - rewrite Hmax. do 2 f_equal.
    assert (Hdata : map (fun i => Qmaximum (column (repeat corr n) i))
                        (seq 0 (size background_image)) = data corr).
    { rewrite <- Hlen. etrans; [|apply map_nth_seq].
      apply map_ext. intros i.
      rewrite column_repeat. destruct n as [|n']; [lia|]. apply Qmaximum_repeat. }
    rewrite Hdata. reflexivity.
  - eexists. split; [exact Hmean|].
    split; [reflexivity|].
    intros k Hk. change (k < size background_image) in Hk. cbn [data].
    rewrite nth_map_seq by exact Hk. rewrite column_repeat.
    destruct n as [|n']; [lia|]. apply Qmean_repeat.
Qed.

End SymmetricFilter.

(** ** The symmetric boundary *)

(** A mirrored index always falls inside the array, and an index that is
    inside already is left where it is. *)
Lemma reflect_symm_index_lt (j : Z) (m : nat) :
  0 < m -> reflect_symm_index j m < m.
Proof.
  intros Hm. unfold reflect_symm_index. cbv zeta.
  assert (Hm2 : (0 < 2 * Z.of_nat m)%Z) by lia.
  destruct (0 <=? j)%Z.
  - pose proof (Z.mod_pos_bound j (2 * Z.of_nat m) Hm2).
    destruct (Z.of_nat m <=? j mod (2 * Z.of_nat m))%Z eqn:E;
      [apply Z.leb_le in E | apply Z.leb_gt in E]; lia.
  - pose proof (Z.mod_pos_bound (Z.abs (j + 1)) (2 * Z.of_nat m) Hm2).
    destruct (Z.of_nat m <=? Z.abs (j + 1) mod (2 * Z.of_nat m))%Z eqn:E;
      [apply Z.leb_le in E | apply Z.leb_gt in E]; lia.
Qed.

Lemma reflect_symm_index_inside (j m : nat) :
  j < m -> reflect_symm_index (Z.of_nat j) m = j.
Proof.
  intros Hj. unfold reflect_symm_index. cbv zeta.
  assert (E1 : (0 <=? Z.of_nat j)%Z = true) by (apply Z.leb_le; lia). rewrite E1.
  rewrite Z.mod_small by lia.
  assert (E2 : (Z.of_nat m <=? Z.of_nat j)%Z = false) by (apply Z.leb_gt; lia).
  rewrite E2. apply Nat2Z.id.
Qed.

(** ** Arrays sample by sample *)

Lemma item_map (f : Q -> Q) (a : array2d) (i j : nat) :
  wf a -> i < height a -> j < width a ->
  item {| shape := shape a; data := map f (data a) |} i j = f (item a i j).
Proof.
  intros Hwf Hi Hj. unfold item, width. cbn [shape data].
  fold (width a).
  assert (Hk : i * width a + j < length (data a)) by (rewrite Hwf; unfold size; nia).
  rewrite nth_indep with (d' := f 0%Q) by (rewrite length_map; exact Hk).
  apply map_nth.
Qed.

Lemma window_items (a : array2d) :
  wf a ->
  map (fun p => item a (fst p) (snd p)) (window_indices (height a) (width a)) = data a.
Proof.
  intros Hwf. unfold window_indices.
  rewrite <- (flat_map_rows (fun j k => item a j k)).
  unfold item.
  etrans; [|apply map_nth_seq]. rewrite Hwf. unfold size.
  change (seq 0 (height a * width a)) with (seq (0 * width a) (height a * width a)).
  rewrite <- (row_major_seq (width a) (height a) 0), map_flat_map.
  apply flat_map_ext. intros i. rewrite map_map. apply map_ext. intros j.
  f_equal. lia.
Qed.

Lemma Qsum_offset {X} (L : list X) (A F : X -> Q) (c : Q) :
  (Qsum (map (fun p => (A p + c) * F p)%Q L)
   == Qsum (map (fun p => A p * F p)%Q L) + c * Qsum (map F L))%Q.
Proof.
  induction L as [|p L IH].
  - cbn. ring.
  - rewrite !map_cons, !Qsum_cons, IH. ring.
Qed.


(** ** Peaks of surfaces in the same order *)




Lemma correlate2d_nth (in1 in2 : array2d) (k : nat) :
  k < size in1 ->
  nth k (data (correlate2d in1 in2)) 0%Q
  = correlate_cell in1 in2 (k / width in1) (k mod width in1).
Proof.
  intros Hk. assert (Hw : 0 < width in1) by (unfold size in Hk; lia).
  rewrite <- correlate2d_item.
  - unfold item. f_equal. change (width (correlate2d in1 in2)) with (width in1).
    rewrite (Nat.div_mod_eq k (width in1)) at 1. lia.
  - apply Nat.Div0.div_lt_upper_bound. unfold size in Hk. lia.
  - apply Nat.mod_upper_bound. lia.
Qed.

(** ** A constant added to the background *)

Lemma correlate_cell_add_scalar (background_image filter : array2d) (c : Q) (m n : nat) :
  wf background_image -> 0 < height background_image -> 0 < width background_image ->
  wf filter ->
  (correlate_cell (add_scalar background_image c) filter m n
   == correlate_cell background_image filter m n + c * Qsum (data filter))%Q.
Proof.
  intros Hwf Hh Hw Hwff.
  rewrite !correlate_cell_window.
  change (height (add_scalar background_image c)) with (height background_image).
  change (width (add_scalar background_image c)) with (width background_image).
  assert (E : Qsum (data filter)
              = Qsum (map (fun p => item filter (fst p) (snd p))
                          (window_indices (height filter) (width filter))))
    by (rewrite window_items by exact Hwff; reflexivity).
  rewrite E. rewrite <- Qsum_offset. unfold add_scalar.
  erewrite map_ext; [reflexivity|]. intros p. cbv beta.
  rewrite (item_map (fun x => x + c)%Q background_image); try assumption;
    try (apply reflect_symm_index_lt; assumption).
  reflexivity.
Qed.

Lemma correlate2d_add_scalar_nth (background_image filter : array2d) (c : Q) (k : nat) :
  wf background_image -> 0 < height background_image -> 0 < width background_image ->
  wf filter -> k < size background_image ->
  (nth k (data (correlate2d (add_scalar background_image c) filter)) 0
   == nth k (data (correlate2d background_image filter)) 0 + c * Qsum (data filter))%Q.
Proof.
  intros Hwf Hh Hw Hwff Hk.
  rewrite (correlate2d_nth (add_scalar background_image c)) by exact Hk.
  rewrite (correlate2d_nth background_image) by exact Hk.
  apply correlate_cell_add_scalar; assumption.
Qed.


(** ** A filter scaled by a positive factor *)



(** ** The filter of the sample generator *)

Lemma flat_map_ext_in {A B} (f g : A -> list B) (l : list A) :
  (forall a, In a l -> f a = g a) -> flat_map f l = flat_map g l.
Proof.
  induction l as [|x l IH]; intros Hext; simpl; [reflexivity|].
  rewrite (Hext x) by (left; reflexivity).
  rewrite IH by (intros a Ha; apply Hext; right; exact Ha). reflexivity.
Qed.

Lemma nth_map_inside (f : Q -> Q) (l : list Q) (k : nat) :
  k < length l -> nth k (map f l) 0%Q = f (nth k l 0%Q).
Proof.
  intros Hk. rewrite nth_indep with (d' := f 0%Q) by (rewrite length_map; exact Hk).
  apply map_nth.
Qed.

(** Cutting a block commutes with an operation applied sample by sample. *)
Lemma sub_block_map (f : Q -> Q) (v : array2d) (r0 r1 c0 c1 : nat) :
  wf v ->
  sub_block {| shape := shape v; data := map f (data v) |} r0 r1 c0 c1
  = {| shape := shape (sub_block v r0 r1 c0 c1);
       data := map f (data (sub_block v r0 r1 c0 c1)) |}.
Proof.
  intros Hwf. unfold sub_block. cbv zeta.
  change (height {| shape := shape v; data := map f (data v) |}) with (height v).
  change (width {| shape := shape v; data := map f (data v) |}) with (width v).
  cbn [shape data]. f_equal.
  rewrite map_flat_map. apply flat_map_ext_in. intros i Hi. apply in_seq in Hi.
  rewrite map_map. apply map_ext_in. intros j Hj. apply in_seq in Hj.
  apply (item_map f v); [exact Hwf | lia | lia].
Qed.

Lemma sub_block_wf (v : array2d) (r0 r1 c0 c1 : nat) : wf (sub_block v r0 r1 c0 c1).
Proof.
  unfold wf, size, height, width, sub_block. cbn [shape data fst snd].
  rewrite length_row_major, length_seq. reflexivity.
Qed.

Lemma Qmean_shift (l : list Q) (c : Q) :
  l <> [] -> (Qmean (map (fun x => x - c) l) == Qmean l - c)%Q.
Proof.
  intros Hne. unfold Qmean. rewrite length_map, Qsum_shift.
  assert (Hn : ~ (inject_Z (Z.of_nat (length l)) == 0)%Q).
  { destruct l as [|x l]; [congruence|]. cbn [length].
    rewrite Nat2Z.inj_succ. unfold Qeq. simpl. lia. }
  field. exact Hn.
Qed.

Lemma Qsum_centered (l : list Q) :
  (Qsum (map (fun x => x - Qmean l) l) == 0)%Q.
Proof.
  destruct l as [|x l]; [reflexivity|].
  rewrite Qsum_shift. unfold Qmean.
  assert (Hn : ~ (inject_Z (Z.of_nat (length (x :: l))) == 0)%Q).
  { cbn [length]. rewrite Nat2Z.inj_succ. unfold Qeq. simpl. lia. }
  field. exact Hn.
Qed.

(** Removing a constant before removing the mean changes nothing. *)
Lemma centered_shift (l : list Q) (c : Q) (k : nat) :
  k < length l ->
  (nth k (map (fun x => x - Qmean (map (fun y => y - c) l)) (map (fun y => y - c) l)) 0
   == nth k (map (fun x => x - Qmean l) l) 0)%Q.
Proof.
  intros Hk.
  rewrite nth_map_inside by (rewrite length_map; exact Hk).
  rewrite !nth_map_inside by exact Hk.
  rewrite Qmean_shift by (intros ->; simpl in Hk; lia). ring.
Qed.

Lemma clean_filter_normalized (face : array2d) :
  wf face ->
  clean_filter face true
  = centered {| shape := shape (sub_block face 300 365 670 750);
                data := map (fun x => x - Qmean (data face))%Q
                            (data (sub_block face 300 365 670 750)) |}.
Proof.
  intros Hwf. unfold clean_filter, clean_background. cbv zeta.
  change (centered face)
    with {| shape := shape face; data := map (fun x => x - Qmean (data face))%Q (data face) |}.
  rewrite (sub_block_map (fun x => x - Qmean (data face))%Q face) by exact Hwf.
  reflexivity.
Qed.

(** X9: with [normalize=True] the subtraction of the image mean leaves no
    trace in the filter: its samples are those of the block of the raw image
    minus the mean of that block, and they sum to zero.  Correlating any
    background with this filter therefore gives the same surface when a
    constant is added to the background. *)
Theorem normalized_filter_is_zero_sum (face : array2d) (draw : nat -> Q)
    (add_noise : bool) (σ0 : heap) :
  wf face ->
  exists background_image filter σ,
    scipy_example face draw true add_noise σ0
      = (Returned (background_image, filter), σ) /\
    same_samples (value σ filter) (centered (sub_block face 300 365 670 750)) /\
    (Qsum (data (value σ filter)) == 0)%Q /\
    (forall (other : array2d) (c : Q),
        wf other -> 0 < height other -> 0 < width other ->
        same_samples (correlate2d (add_scalar other c) (value σ filter))
                     (correlate2d other (value σ filter))).
Proof.
  intros Hwf.
  destruct (scipy_example_spec face draw Hwf true add_noise σ0)
    as (bg & filter & σ & E & _ & Hfilter & _ & _).
  exists bg, filter, σ. split; [exact E|].
  rewrite (holds_value _ _ _ Hfilter), (clean_filter_normalized face Hwf).
  set (block := sub_block face 300 365 670 750).
  pose proof (sub_block_wf face 300 365 670 750) as Hb. fold block in Hb. unfold wf in Hb.
  set (v := centered {| shape := shape block;
                        data := map (fun x => x - Qmean (data face))%Q (data block) |}).
  assert (Hzero : (Qsum (data v) == 0)%Q) by (unfold v, centered; cbn [data]; apply Qsum_centered).
  assert (Hwfv : wf v).
  { unfold wf, v, centered, size, height, width. cbn [data shape].
    rewrite !length_map. exact Hb. }
  split; [|split].
  - split; [reflexivity|]. intros k Hk. unfold v, centered. cbn [data shape].
    apply centered_shift. rewrite Hb. exact Hk.
  - exact Hzero.
  - intros other c Hwo Hho Hwo'. split; [reflexivity|].
    intros k Hk. change (size (correlate2d (add_scalar other c) v)) with (size other) in Hk.
    rewrite correlate2d_add_scalar_nth by assumption.
    rewrite Hzero. ring.
Qed.

(** ** Shapes and the store *)

(** X10: the sample generator never fails, whatever the size of the image.
    The background has the shape of the image; the filter is a contiguous
    array of its own whose shape is that of the block [300:365, 670:750]
    clipped to the image: 65 by 80 when the image has at least 365 rows and
    750 columns, and empty when it has at most 300 rows or at most 670
    columns. *)
Theorem scipy_example_shapes (face : array2d) (draw : nat -> Q)
    (normalize add_noise : bool) (σ0 : heap) :
  wf face ->
  exists background_image filter σ,
    scipy_example face draw normalize add_noise σ0
      = (Returned (background_image, filter), σ) /\
    shape (value σ background_image) = shape face /\
    wf (value σ background_image) /\
    shape (value σ filter)
      = (365 `min` height face - 300 `min` height face,
         750 `min` width face - 670 `min` width face) /\
    wf (value σ filter) /\
    contiguous background_image /\ contiguous filter /\
    (365 <= height face -> 750 <= width face -> shape (value σ filter) = (65, 80)) /\
    (height face <= 300 \/ width face <= 670 -> data (value σ filter) = []).
Proof.
  intros Hwf.
  destruct (scipy_example_spec face draw Hwf normalize add_noise σ0)
    as (bg & filter & σ & E & Hbg & Hfilter & _ & _).
  exists bg, filter, σ. split; [exact E|].
  pose proof Hbg as (Hcb & _ & _ & Hwfb). pose proof Hfilter as (Hcf & _ & _ & Hwff).
  rewrite (holds_value _ _ _ Hbg), (holds_value _ _ _ Hfilter).
  assert (Hshape : shape (clean_filter face normalize)
                   = (365 `min` height face - 300 `min` height face,
                      750 `min` width face - 670 `min` width face))
    by (destruct normalize; reflexivity).
  split; [destruct normalize, add_noise; reflexivity|].
  split; [exact Hwfb|]. split; [exact Hshape|]. split; [exact Hwff|].
  split; [exact Hcb|]. split; [exact Hcf|]. split.
  - intros Hh Hw. rewrite Hshape. f_equal; lia.
  - intros Hsmall. apply length_zero_iff_nil. rewrite Hwff.
    unfold size, height, width. rewrite Hshape. cbn [fst snd].
    fold (height face) (width face). destruct Hsmall; nia.
Qed.

(** X11: a call of the sample generator changes no buffer that was in the
    store before it: every array, whole or view, that existed before the
    call has the same value after it. *)
Theorem scipy_example_preserves_store (face : array2d) (draw : nat -> Q)
    (normalize add_noise : bool) (σ0 : heap) :
  wf face ->
  exists background_image filter σ,
    scipy_example face draw normalize add_noise σ0
      = (Returned (background_image, filter), σ) /\
    σ0 ⊆ σ /\
    (forall a : ndarray, is_Some (σ0 !! base a) -> value σ a = value σ0 a).
Proof.
  intros Hwf.
  destruct (scipy_example_spec face draw Hwf normalize add_noise σ0)
    as (bg & filter & σ & E & _ & _ & _ & Hsub).
  exists bg, filter, σ. split; [exact E|]. split; [exact Hsub|].
  intros a [buf Hbuf]. unfold value, contents, buffer.
  rewrite Hbuf, (lookup_weaken _ _ _ _ Hbuf Hsub). reflexivity.
Qed.

(** ** The demonstration driver *)

Lemma in_world_returned {A} (m : M A) (a : A) (log : list event) (w : world) :
  run m = (Returned a, log) ->
  in_world m w = (Returned a, {| primitive_log := primitive_log w ++ log;
                                 rng_position := rng_position w;
                                 artifacts := artifacts w |}).
Proof. intros E. unfold in_world. rewrite E. reflexivity. Qed.

Section DriverFacts.

Variable rotate : array2d -> Z -> array2d.
Variable rand : nat -> Q.

(** X12: whatever samples the random generator hands out, the driver runs
    to its end.  It draws a 100 by 100 background and a 20 by 20 filter,
    asks for one correlation and then for the 36 rotations and 36
    correlations of the sweep of step 10, and hands the plotting sinks three
    pictures in this order: the surface with its peak, the mean surface and
    the maximum surface, the last two of the shape of the background. *)
Theorem main_completes (fuel : nat) :
  36 <= fuel ->
  let background_image :=
    {| shape := (100, 100); data := map rand (seq 0 (100 * 100)) |} in
  let filter :=
    {| shape := (20, 20); data := map (fun k => rand (100 * 100 + k)) (seq 0 (20 * 20)) |} in
  exists corr max_loc average_corr max_corr,
    main rotate rand fuel world_init
      = (Returned tt,
         {| primitive_log := EvCorrelate2d :: sweep_events (sweep_angles 10);
            rng_position := 100 * 100 + 20 * 20;
            artifacts :=
              [Plot2d background_image filter corr max_loc "2d_images.png"%string;
               Plot3d average_corr "3d_avg_topography_plot.html"%string;
               Plot3d max_corr "3d_max_topography_plot.html"%string] |}) /\
    corr = correlate2d background_image filter /\
    max_loc = peak corr /\
    fst max_loc < 100 /\ snd max_loc < 100 /\
    run (rotational_cc rotate fuel background_image filter 10 true true)
      = (Returned (Both average_corr max_corr), sweep_events (sweep_angles 10)) /\
    shape average_corr = (100, 100) /\
    shape max_corr = (100, 100) /\
    length (EvCorrelate2d :: sweep_events (sweep_angles 10)) = 73.
Proof.
  intros Hfuel bg f.
  assert (Hsz : 0 < size bg) by (unfold size, height, width, bg; cbn [shape fst snd]; lia).
  assert (Hcount : sweep_count 10 <= fuel) by (change (sweep_count 10) with 36; exact Hfuel).
  assert (Hangle : (0 < 10 < 360)%Z) by lia.
  pose proof (cross_correlation_with_loc bg f [] Hsz) as Ecc.
  destruct (rotational_cc_valid_run rotate bg f 10 true true fuel Hsz Hangle Hcount)
    as (_ & _ & Esweep).
  destruct (peak_spec (correlate2d bg f) (correlate2d_wf bg f) Hsz) as (Hx & Hy & _).
  eexists (correlate2d bg f), (peak (correlate2d bg f)), _, _.
  split.
  { unfold main.
    assert (E1 : np_random_rand rand 100 100 world_init
                 = (Returned bg, {| primitive_log := []; rng_position := 100 * 100;
                                    artifacts := [] |})) by reflexivity.
    step E1.
    assert (E2 : np_random_rand rand 20 20
                   {| primitive_log := []; rng_position := 100 * 100; artifacts := [] |}
                 = (Returned f, {| primitive_log := [];
                                   rng_position := 100 * 100 + 20 * 20;
                                   artifacts := [] |})) by reflexivity.
    step E2.
    step (in_world_returned _ _ _ {| primitive_log := [];
                                     rng_position := 100 * 100 + 20 * 20;
                                     artifacts := [] |} Ecc).
    cbn [primitive_log rng_position artifacts unpack_loc app].
    unfold mbind at 1, ST_bind at 1, lift at 1. cbv beta iota.
    unfold mbind at 1, ST_bind at 1, save_plot at 1.
    cbn [primitive_log rng_position artifacts app].
    erewrite (bind_returned (in_world _));
      [|apply in_world_returned; exact Esweep].
    cbn [primitive_log rng_position artifacts unpack_both app].
    reflexivity. }
  split; [reflexivity|]. split; [reflexivity|].
  split; [exact Hx|]. split; [exact Hy|].
  split; [exact Esweep|]. split; [reflexivity|]. split; [reflexivity|].
  cbn [length]. rewrite length_sweep_events. reflexivity.
Qed.

End DriverFacts.

(** ** The best score over all angles *)

Section BestScore.

Variable rotate : array2d -> Z -> array2d.

(** X13: in a valid sweep the highest score of the maximum surface is the
    highest peak score found at any angle: no angle has a peak above it, and
    some tested angle has a peak that reaches it. *)
Theorem max_surface_peak_is_best_peak (background_image filter : array2d)
    (angle : Z) (fuel : nat) :
  0 < height background_image -> 0 < width background_image ->
  (0 < angle < 360)%Z ->
  sweep_count angle <= fuel ->
  exists max,
    run (rotational_cc rotate fuel background_image filter angle false true)
      = (Returned (Maximum max), sweep_events (sweep_angles angle)) /\
    run (rotational_cc rotate fuel background_image filter angle false false)
      = (Returned (FullSweep
                     (map (surface_at rotate background_image filter) (sweep_angles angle))
                     (map (fun a => peak (surface_at rotate background_image filter a))
                          (sweep_angles angle))),
         sweep_events (sweep_angles angle)) /\
    (forall a, In a (sweep_angles angle) ->
       (peak_value (surface_at rotate background_image filter a) <= peak_value max)%Q) /\
    (exists a, In a (sweep_angles angle) /\
       (peak_value (surface_at rotate background_image filter a) == peak_value max)%Q).
Proof.
  intros Hh Hw Hangle Hfuel.
  assert (Hsz : 0 < size background_image) by (unfold size; lia).
  destruct (rotational_cc_valid_run rotate background_image filter angle
              false true fuel Hsz Hangle Hfuel) as (_ & _ & Hmax).
  destruct (rotational_cc_valid_run rotate background_image filter angle
              false false fuel Hsz Hangle Hfuel) as (_ & _ & Hfull).
  cbv zeta in Hmax, Hfull.
  set (surfaces := map (surface_at rotate background_image filter) (sweep_angles angle)) in *.
  set (max := {| shape := shape background_image;
                 data := map (fun i => Qmaximum (column surfaces i))
                             (seq 0 (size background_image)) |}) in *.
  exists max. split; [exact Hmax|]. split; [exact Hfull|].
  assert (Hwfm : wf max).
  { unfold wf, max. cbn [data]. rewrite length_map, length_seq. reflexivity. }
  assert (Hszm : 0 < size max) by exact Hsz.
  destruct (peak_spec max Hwfm Hszm) as (_ & _ & (Hidx & Hmaxall & _)).
  rewrite Hwfm in Hidx, Hmaxall.
  assert (Hne : surfaces <> [])
    by (apply sweep_surfaces_nonempty; lia).
  assert (Hcell : forall i, i < size background_image ->
            nth i (data max) 0%Q = Qmaximum (column surfaces i))
    by (intros i Hi; unfold max; cbn [data];
        apply (nth_map_seq (fun i => Qmaximum (column surfaces i))); exact Hi).
  assert (Hcol : forall i, column surfaces i <> [])
    by (intros i Hnil; apply Hne; apply map_eq_nil in Hnil; exact Hnil).
  assert (Hbelow : forall a, In a (sweep_angles angle) ->
            (peak_value (surface_at rotate background_image filter a) <= peak_value max)%Q).
  { intros a Ha. set (s := surface_at rotate background_image filter a).
    assert (Hwfs : length (data s) = size background_image)
      by apply (correlate2d_wf background_image (rotate filter a)).
    destruct (peak_spec s (correlate2d_wf _ _) Hsz) as (_ & _ & (Hi & _ & _)).
    rewrite Hwfs in Hi.
    unfold peak_value, item.
    eapply Qle_trans; [|apply Hmaxall; exact Hi].
    change (width max) with (width s). rewrite (Hcell _ Hi).
    destruct (Qmaximum_spec _ (Hcol (snd (peak s) * width s + fst (peak s)))) as [_ Hall].
    rewrite List.Forall_forall in Hall. apply Hall.
    unfold column. apply in_map_iff. exists s. split; [reflexivity|].
    unfold surfaces. apply in_map. exact Ha. }
  split; [exact Hbelow|].
  destruct (Qmaximum_spec _ (Hcol (snd (peak max) * width max + fst (peak max))))
    as [Hin _].
  unfold column in Hin at 2. apply in_map_iff in Hin as (s & Hs & Hsin).
  unfold surfaces in Hsin. apply in_map_iff in Hsin as (a & <- & Ha).
  exists a. split; [exact Ha|].
  apply Qle_antisym; [apply Hbelow; exact Ha|].
  set (s := surface_at rotate background_image filter a) in *.
  assert (Hwfs : length (data s) = size background_image)
    by apply (correlate2d_wf background_image (rotate filter a)).
  destruct (peak_spec s (correlate2d_wf _ _) Hsz) as (_ & _ & (_ & Hsall & _)).
  rewrite Hwfs in Hsall.
  unfold peak_value at 1. unfold item at 1. rewrite (Hcell _ Hidx), <- Hs.
  apply Hsall. exact Hidx.
Qed.

End BestScore.

(** ** The further properties at sample inputs *)

Lemma cross_correlation_empty_background_witness :
  size background_0x4 = 0 /\
  run (cross_correlation background_0x4 filter_2x2 true)
    = (Raised ValueError, [EvCorrelate2d]).
Proof.
  assert (H1 : size background_0x4 = 0) by reflexivity.
  exact (conj H1 (cross_correlation_empty_background background_0x4 filter_2x2 H1)).
Defined.

Lemma rotational_cc_empty_background_witness :
  size background_0x4 = 0 /\ (10 < 360)%Z /\
  run (rotational_cc rotate_sample 36 background_0x4 filter_2x2 10 true true)
    = (Raised ValueError, [EvRotate 0; EvCorrelate2d]).
Proof.
  assert (H1 : size background_0x4 = 0) by reflexivity.
  assert (H2 : (10 < 360)%Z) by lia.
  exact (conj H1 (conj H2
    (rotational_cc_empty_background rotate_sample background_0x4 filter_2x2 10
       true true 35 H1 H2))).
Defined.

Lemma sweep_100_full :
  run (rotational_cc rotate_sample 4 background_3x4 filter_2x2 100 false false)
    = (Returned (FullSweep surfaces_100 locs_100), sweep_events (sweep_angles 100)).
Proof. vm_compute. reflexivity. Defined.

Lemma sweep_100_both :
  run (rotational_cc rotate_sample 4 background_3x4 filter_2x2 100 true true)
    = (Returned (Both mean_100 max_100), sweep_events (sweep_angles 100)).
Proof. vm_compute. reflexivity. Defined.

Lemma sweep_peaks_match_surfaces_witness :
  run (rotational_cc rotate_sample 4 background_3x4 filter_2x2 100 false false)
    = (Returned (FullSweep surfaces_100 locs_100), sweep_events (sweep_angles 100)) /\
  length locs_100 = length surfaces_100 /\
  forall k s loc, surfaces_100 !! k = Some s -> locs_100 !! k = Some loc ->
    loc = peak s /\
    fst loc < width background_3x4 /\
    snd loc < height background_3x4 /\
    first_max (data s) (snd loc * width s + fst loc).
Proof.
  exact (conj sweep_100_full
    (sweep_peaks_match_surfaces rotate_sample background_3x4 filter_2x2 100 4
       surfaces_100 locs_100 (sweep_events (sweep_angles 100)) sweep_100_full)).
Defined.

Lemma mean_surface_below_max_surface_witness :
  run (rotational_cc rotate_sample 4 background_3x4 filter_2x2 100 true true)
    = (Returned (Both mean_100 max_100), sweep_events (sweep_angles 100)) /\
  shape mean_100 = shape max_100 /\
  length (data mean_100) = size mean_100 /\
  forall i, i < size mean_100 -> (nth i (data mean_100) 0 <= nth i (data max_100) 0)%Q.
Proof.
  exact (conj sweep_100_both
    (mean_surface_below_max_surface rotate_sample background_3x4 filter_2x2 100 4
       mean_100 max_100 (sweep_events (sweep_angles 100)) sweep_100_both)).
Defined.

Lemma sweep_work_is_bounded_witness :
  0 < height background_3x4 /\ 0 < width background_3x4 /\ (0 < 7 < 360)%Z /\
  2 <= sweep_count 7 <= 360 /\
  exists result,
    run (rotational_cc rotate_sample 360 background_3x4 filter_2x2 7 true false)
      = (Returned result, sweep_events (sweep_angles 7)) /\
    length (sweep_events (sweep_angles 7)) = 2 * sweep_count 7.
Proof.
  assert (H1 : 0 < height background_3x4) by (vm_compute; lia).
  assert (H2 : 0 < width background_3x4) by (vm_compute; lia).
  assert (H3 : (0 < 7 < 360)%Z) by lia.
  exact (conj H1 (conj H2 (conj H3
    (sweep_work_is_bounded rotate_sample background_3x4 filter_2x2 7 true false
       H1 H2 H3)))).
Defined.

Lemma sweep_of_rotation_symmetric_filter_witness :
  0 < height background_3x4 /\ 0 < width background_3x4 /\
  (0 < 100 < 360)%Z /\ sweep_count 100 <= 4 /\
  (forall a, In a (sweep_angles 100) -> rotate_none filter_2x2 a = filter_2x2) /\
  let corr := correlate2d background_3x4 filter_2x2 in
  let n := sweep_count 100 in
  run (rotational_cc rotate_none 4 background_3x4 filter_2x2 100 false false)
    = (Returned (FullSweep (repeat corr n) (repeat (peak corr) n)),
       sweep_events (sweep_angles 100)) /\
  run (rotational_cc rotate_none 4 background_3x4 filter_2x2 100 false true)
    = (Returned (Maximum corr), sweep_events (sweep_angles 100)) /\
  exists mean,
    run (rotational_cc rotate_none 4 background_3x4 filter_2x2 100 true false)
      = (Returned (Average mean), sweep_events (sweep_angles 100)) /\
    same_samples mean corr.
Proof.
  assert (H1 : 0 < height background_3x4) by (vm_compute; lia).
  assert (H2 : 0 < width background_3x4) by (vm_compute; lia).
  assert (H3 : (0 < 100 < 360)%Z) by lia.
  assert (H4 : sweep_count 100 <= 4) by (vm_compute; lia).
  assert (H5 : forall a, In a (sweep_angles 100) -> rotate_none filter_2x2 a = filter_2x2)
    by (intros a _; reflexivity).
  exact (conj H1 (conj H2 (conj H3 (conj H4 (conj H5
    (sweep_of_rotation_symmetric_filter rotate_none background_3x4 filter_2x2 100 4
       H1 H2 H3 H4 H5)))))).
Defined.





Lemma normalized_filter_is_zero_sum_witness :
  wf face_sample /\
  exists background_image filter σ,
    scipy_example face_sample draw_sample true true ∅
      = (Returned (background_image, filter), σ) /\
    same_samples (value σ filter) (centered (sub_block face_sample 300 365 670 750)) /\
    (Qsum (data (value σ filter)) == 0)%Q /\
    (forall (other : array2d) (c : Q),
        wf other -> 0 < height other -> 0 < width other ->
        same_samples (correlate2d (add_scalar other c) (value σ filter))
                     (correlate2d other (value σ filter))).
Proof.
  exact (conj face_sample_wf
    (normalized_filter_is_zero_sum face_sample draw_sample true ∅ face_sample_wf)).
Defined.

Lemma scipy_example_shapes_witness :
  wf face_sample /\
  exists background_image filter σ,
    scipy_example face_sample draw_sample true true ∅
      = (Returned (background_image, filter), σ) /\
    shape (value σ background_image) = shape face_sample /\
    wf (value σ background_image) /\
    shape (value σ filter)
      = (365 `min` height face_sample - 300 `min` height face_sample,
         750 `min` width face_sample - 670 `min` width face_sample) /\
    wf (value σ filter) /\
    contiguous background_image /\ contiguous filter /\
    (365 <= height face_sample -> 750 <= width face_sample ->
     shape (value σ filter) = (65, 80)) /\
    (height face_sample <= 300 \/ width face_sample <= 670 ->
     data (value σ filter) = []).
Proof.
  exact (conj face_sample_wf
    (scipy_example_shapes face_sample draw_sample true true ∅ face_sample_wf)).
Defined.

Lemma scipy_example_preserves_store_witness :
  wf face_sample /\
  exists background_image filter σ,
    scipy_example face_sample draw_sample true true store_2x2
      = (Returned (background_image, filter), σ) /\
    store_2x2 ⊆ σ /\
    (forall a : ndarray, is_Some (store_2x2 !! base a) -> value σ a = value store_2x2 a).
Proof.
  exact (conj face_sample_wf
    (scipy_example_preserves_store face_sample draw_sample true true store_2x2
       face_sample_wf)).
Defined.

Lemma main_completes_witness :
  36 <= 36 /\
  let background_image :=
    {| shape := (100, 100); data := map draw_sample (seq 0 (100 * 100)) |} in
  let filter :=
    {| shape := (20, 20);
       data := map (fun k => draw_sample (100 * 100 + k)) (seq 0 (20 * 20)) |} in
  exists corr max_loc average_corr max_corr,
    main rotate_sample draw_sample 36 world_init
      = (Returned tt,
         {| primitive_log := EvCorrelate2d :: sweep_events (sweep_angles 10);
            rng_position := 100 * 100 + 20 * 20;
            artifacts :=
              [Plot2d background_image filter corr max_loc "2d_images.png"%string;
               Plot3d average_corr "3d_avg_topography_plot.html"%string;
               Plot3d max_corr "3d_max_topography_plot.html"%string] |}) /\
    corr = correlate2d background_image filter /\
    max_loc = peak corr /\
    fst max_loc < 100 /\ snd max_loc < 100 /\
    run (rotational_cc rotate_sample 36 background_image filter 10 true true)
      = (Returned (Both average_corr max_corr), sweep_events (sweep_angles 10)) /\
    shape average_corr = (100, 100) /\
    shape max_corr = (100, 100) /\
    length (EvCorrelate2d :: sweep_events (sweep_angles 10)) = 73.
Proof.
  assert (H1 : 36 <= 36) by lia.
  exact (conj H1 (main_completes rotate_sample draw_sample 36 H1)).
Defined.

Lemma max_surface_peak_is_best_peak_witness :
  0 < height background_3x4 /\ 0 < width background_3x4 /\
  (0 < 100 < 360)%Z /\ sweep_count 100 <= 4 /\
  exists max,
    run (rotational_cc rotate_sample 4 background_3x4 filter_2x2 100 false true)
      = (Returned (Maximum max), sweep_events (sweep_angles 100)) /\
    run (rotational_cc rotate_sample 4 background_3x4 filter_2x2 100 false false)
      = (Returned (FullSweep
                     (map (surface_at rotate_sample background_3x4 filter_2x2)
                          (sweep_angles 100))
                     (map (fun a => peak (surface_at rotate_sample background_3x4
                                                     filter_2x2 a))
                          (sweep_angles 100))),
         sweep_events (sweep_angles 100)) /\
    (forall a, In a (sweep_angles 100) ->
       (peak_value (surface_at rotate_sample background_3x4 filter_2x2 a)
        <= peak_value max)%Q) /\
    (exists a, In a (sweep_angles 100) /\
       (peak_value (surface_at rotate_sample background_3x4 filter_2x2 a)
        == peak_value max)%Q).
Proof.
  assert (H1 : 0 < height background_3x4) by (vm_compute; lia).
  assert (H2 : 0 < width background_3x4) by (vm_compute; lia).
  assert (H3 : (0 < 100 < 360)%Z) by lia.
  assert (H4 : sweep_count 100 <= 4) by (vm_compute; lia).
  exact (conj H1 (conj H2 (conj H3 (conj H4
    (max_surface_peak_is_best_peak rotate_sample background_3x4 filter_2x2 100 4
       H1 H2 H3 H4))))).
Defined.

(** * The sweep with a step that is not an integer *)

(** C2, as worded for every step in (0, 360), fails for the binary64 step
    7.2: the step stands for a rational in (0, 360) with ceiling of
    360 / step equal to 50, fifty additions leave the running angle at
    359.99999999999966, still below 360, and the loop makes 51 passes. *)
Lemma sweep_iteration_count_float_step :
  (0 < float_to_Q step_7_2 < 360)%Q /\
  Qceiling (360 / float_to_Q step_7_2) = 50%Z /\
  PrimFloat.ltb (Nat.iter 50 (fun a => PrimFloat.add a step_7_2) PrimFloat.zero)
                360%float = true /\
  passes_float (run (sweep_loop_float rotate_none_float 60 background_3x4 filter_2x2
                                      step_7_2 sweep_init_float)) = Some 51 /\
  passes_float (run (sweep_loop_float rotate_none_float 60 background_3x4 filter_2x2
                                      step_7_2 sweep_init_float))
    <> Some (Z.to_nat (Qceiling (360 / float_to_Q step_7_2))).
Proof.
  split; [split; vm_compute; reflexivity|].
  split; [vm_compute; reflexivity|].
  split; [vm_compute; reflexivity|].
  split; [vm_compute; reflexivity|].
  vm_compute. discriminate.
Qed.
